(** * The repository layer of main.py over its SQLite store

    A shallow embedding of [UserRepository] and [TaskRepository] together
    with the part of SQLAlchemy's session and of SQLite that the two classes
    drive: the two tables and their declared constraints, the unit of work
    ([add], [commit], [rollback], the [with] block) and the statements the
    methods issue.  A repository method is a function from the committed
    contents of example.db to its outcome (a value or a raised exception)
    and the committed contents afterwards.  The script at the end of the
    module is the sequence of its calls on the freshly created schema.

    Scope of the embedding.
    - Positional parameters have the types of their annotations ([str],
      [int], [bool]); [user_id], whose default is [None], is an optional
      integer.  The dictionaries [filter_by] and [kwargs] are finite maps
      from attribute names to Python values.
    - Python's [True] and [False] are the integers 1 and 0.
    - Values are stored and compared as given.  Three things SQLite and
      its driver do with values are not represented: column affinity (a text
      parameter that reads as a number meeting an INTEGER column, a number
      stored in a TEXT column), the [OverflowError] of binding an integer
      that does not fit 64 bits, and the random rowid given to a new row
      when the largest rowid is already the largest integer.  A statement
      about the outcome of a call that binds values is therefore made under
      the hypotheses [int64] and [typed] of the vocabulary: for integers of
      64 bits, for dictionaries that give every column a value of its
      declared type, and for tables whose next rowid is such an integer.
    - The keys of [filter_by] and [kwargs] are read as column names, and a
      key that names no mapped column makes the statement raise.  The other
      attributes of the mapped classes (the relationships [tasks] and
      [user], [metadata], [registry] and the like) are not interpreted as
      keys: what is stated about outcomes is stated for dictionaries whose
      keys are columns.
    - SQLite does not enforce FOREIGN KEY clauses unless a pragma asks for
      it, and main.py never does: [tasks.user_id] is stored unchecked.
    - One process uses the store: no other connection writes between two
      calls. *)

From stdpp Require Import base decidable option numbers list sorting
  strings gmap fin_maps.

Local Open Scope string_scope.
Local Open Scope list_scope.
Local Open Scope Z_scope.

(** ** Python values and exceptions *)

Inductive value :=
| VNone
| VInt (n : Z)
| VStr (s : string).

#[global] Instance value_eq_dec : EqDecision value.
Proof. solve_decision. Defined.

(** The exceptions the storage layer raises towards the repositories.
    [IntegrityError]: a NOT NULL, UNIQUE or PRIMARY KEY constraint failed;
    [InvalidRequestError]: [filter_by] met a name that is no column of the
    entity; [CompileError]: [update] met such a name;
    [OperationalError]: the statement was rejected by SQLite's parser
    (an UPDATE with an empty SET list). *)
Inductive exn :=
| IntegrityError
| InvalidRequestError
| CompileError
| OperationalError.

#[global] Instance exn_eq_dec : EqDecision exn.
Proof. solve_decision. Defined.

(** ** Entity model (main.py, lines 27-51) *)

Module Task.
Record t := mk {
  id : Z;                (* Integer, primary_key=True *)
  title : value;         (* String(200), nullable=False *)
  description : value;   (* Mapped[str], String(1000) *)
  completed : value;     (* Mapped[bool], Boolean, default=False *)
  user_id : value        (* Mapped[int], Integer, ForeignKey("users.id") *)
}.

#[global] Instance eq_dec : EqDecision t.
Proof. solve_decision. Defined.

(** The column a keyword of [filter_by] names. *)
Definition get (key : string) (x : t) : option value :=
  if decide (key = "id") then Some (VInt (id x))
  else if decide (key = "title") then Some (title x)
  else if decide (key = "description") then Some (description x)
  else if decide (key = "completed") then Some (completed x)
  else if decide (key = "user_id") then Some (user_id x)
  else None.

Definition columns : list string :=
  ["id"; "title"; "description"; "completed"; "user_id"].
End Task.

Module User.
Record t := mk {
  id : Z;          (* Integer, primary_key=True *)
  name : value;    (* String(50), nullable=False *)
  email : value;   (* Mapped[str], String(100), unique=True *)
  age : value      (* Mapped[int], Integer *)
}.

#[global] Instance eq_dec : EqDecision t.
Proof. solve_decision. Defined.

Definition get (key : string) (x : t) : option value :=
  if decide (key = "id") then Some (VInt (id x))
  else if decide (key = "name") then Some (name x)
  else if decide (key = "email") then Some (email x)
  else if decide (key = "age") then Some (age x)
  else None.

Definition columns : list string := ["id"; "name"; "email"; "age"].

(** A [User] object whose [tasks] relationship has been loaded together
    with its columns ([joinedload(User.tasks)]). *)
Record loaded := Loaded {
  columns_of : t;
  tasks : list Task.t
}.

#[global] Instance loaded_eq_dec : EqDecision loaded.
Proof. solve_decision. Defined.
End User.

(** ** The store: the two tables of example.db *)

Record database := Database {
  users : list User.t;
  tasks : list Task.t
}.

#[global] Instance database_eq_dec : EqDecision database.
Proof. solve_decision. Defined.

(** [Base.metadata.drop_all(engine); Base.metadata.create_all(engine)] *)
Definition empty_db : database := Database [] [].

(** *** The declared columns

    A column as [mapped_column] declares it, with what decides whether it
    accepts NULL: whether the annotation is [Mapped[Optional[...]]], the
    [nullable=] argument when one is passed, and [primary_key=True]. *)
Record column := Column {
  column_name : string;
  optional : bool;
  nullable_arg : option bool;
  primary_key : bool
}.

(** Lines 29-32. *)
Definition users_table : list column :=
  [ Column "id" false None true;             (* id: Mapped[int], primary_key=True *)
    Column "name" false (Some false) false;  (* name: Mapped[str], nullable=False *)
    Column "email" false None false;         (* email: Mapped[str], unique=True *)
    Column "age" false None false ].         (* age: Mapped[int] *)

(** Lines 42-47. *)
Definition tasks_table : list column :=
  [ Column "id" false None true;             (* id: Mapped[int], primary_key=True *)
    Column "title" false (Some false) false; (* title: Mapped[str], nullable=False *)
    Column "description" false None false;   (* description: Mapped[str] *)
    Column "completed" false None false;     (* completed: Mapped[bool], default=False *)
    Column "user_id" false None false ].     (* user_id: Mapped[int], ForeignKey *)

(** The declarative mapping lets an explicit [nullable=] decide; without
    one, a column is nullable exactly when its annotation is optional and it
    is not part of the primary key. *)
Definition nullable (c : column) : bool :=
  match nullable_arg c with
  | Some b => b
  | None => optional c && negb (primary_key c)
  end.

(** May [v] be stored in the column [name] of [table]? *)
Definition not_null_ok (table : list column) (name : string) (v : value)
  : bool :=
  match List.find (λ c, bool_decide (column_name c = name)) table with
  | Some c => nullable c || bool_decide (v ≠ VNone)
  | None => true
  end.

(** A table without AUTOINCREMENT gives a new row the largest rowid in use
    plus one, and 1 when the table is empty. *)
Definition next_rowid (ids : list Z) : Z :=
  match ids with
  | [] => 1
  | i :: ids' => foldr Z.max i ids' + 1
  end.

(** A table scan visits rows by ascending rowid. *)
Definition user_rowid_le (u v : User.t) : Prop := User.id u ≤ User.id v.
Definition task_rowid_le (s t : Task.t) : Prop := Task.id s ≤ Task.id t.

#[global] Instance user_rowid_le_dec u v : Decision (user_rowid_le u v).
Proof. unfold user_rowid_le. apply _. Defined.

#[global] Instance task_rowid_le_dec s t : Decision (task_rowid_le s t).
Proof. unfold task_rowid_le. apply _. Defined.

Definition users_by_rowid (l : list User.t) : list User.t :=
  merge_sort user_rowid_le l.

Definition tasks_by_rowid (l : list Task.t) : list Task.t :=
  merge_sort task_rowid_le l.

(** *** INSERT *)

(** The NOT NULL columns are checked first, then the UNIQUE index that
    [unique=True] puts on [email]. *)
Definition insert_user (name email age : value) (db : database)
  : exn + (User.t * database) :=
  if negb (not_null_ok users_table "name" name
           && not_null_ok users_table "email" email
           && not_null_ok users_table "age" age)
  then inl IntegrityError
  else if bool_decide (email ∈ User.email <$> users db)
  then inl IntegrityError
  else
    let u := User.mk (next_rowid (User.id <$> users db)) name email age in
    inr (u, Database (users db ++ [u]) (tasks db)).

(** [completed] carries [default=False]: the mapper leaves a [None] out of
    the INSERT and the default is used.  The value of [user_id] is stored
    without looking it up in [users]. *)
Definition insert_task (title description completed user_id : value)
  (db : database) : exn + (Task.t * database) :=
  let completed := if decide (completed = VNone) then VInt 0 else completed in
  if negb (not_null_ok tasks_table "title" title
           && not_null_ok tasks_table "description" description
           && not_null_ok tasks_table "user_id" user_id)
  then inl IntegrityError
  else
    let t := Task.mk (next_rowid (Task.id <$> tasks db))
                     title description completed user_id in
    inr (t, Database (users db) (tasks db ++ [t])).

(** *** SELECT ... WHERE, from [filter_by] with the dictionary's entries as keywords *)

(** Every keyword must name a column of the entity. *)
Definition known_keys (cols : list string) (d : gmap string value) : Prop :=
  map_Forall (λ k _, k ∈ cols) d.

#[global] Instance known_keys_dec cols d : Decision (known_keys cols d).
Proof. unfold known_keys. apply _. Defined.

(** The conjunction of the equalities [column = value], one per entry. *)
Definition user_matches (f : gmap string value) (u : User.t) : Prop :=
  map_Forall (λ k v, User.get k u = Some v) f.

Definition task_matches (f : gmap string value) (t : Task.t) : Prop :=
  map_Forall (λ k v, Task.get k t = Some v) f.

#[global] Instance user_matches_dec f u : Decision (user_matches f u).
Proof. unfold user_matches. apply _. Defined.

#[global] Instance task_matches_dec f t : Decision (task_matches f t).
Proof. unfold task_matches. apply _. Defined.

Definition select_users (f : gmap string value) (db : database)
  : exn + list User.t :=
  if decide (known_keys User.columns f)
  then inr (filter (user_matches f) (users_by_rowid (users db)))
  else inl InvalidRequestError.

Definition select_tasks (f : gmap string value) (db : database)
  : exn + list Task.t :=
  if decide (known_keys Task.columns f)
  then inr (filter (task_matches f) (tasks_by_rowid (tasks db)))
  else inl InvalidRequestError.

(** The rows of [tasks] joined to a user: [users.id = tasks.user_id]. *)
Definition owned_by (u : User.t) (t : Task.t) : Prop :=
  Task.user_id t = VInt (User.id u).

#[global] Instance owned_by_dec u t : Decision (owned_by u t).
Proof. unfold owned_by. apply _. Defined.

Definition load_tasks (db : database) (u : User.t) : User.loaded :=
  User.Loaded u (filter (owned_by u) (tasks_by_rowid (tasks db))).

(** *** UPDATE users SET ... WHERE ..., from [update(kwargs)] *)

(** The value a column holds after the assignment; an assigned NULL is
    checked against the column's nullability. *)
Definition set_column (table : list column) (column : string) (old : value)
  (new : option value) : exn + value :=
  match new with
  | None => inr old
  | Some v => if not_null_ok table column v then inr v else inl IntegrityError
  end.

(** The rowid after the assignment: the rowid column takes integers only
    (anything else, NULL included, is SQLite's "datatype mismatch"). *)
Definition set_rowid (old : Z) (new : option value) : exn + Z :=
  match new with
  | None => inr old
  | Some (VInt n) => inr n
  | Some _ => inl IntegrityError
  end.

(** The row written in place of [u]. *)
Definition assign (kw : gmap string value) (u : User.t) : exn + User.t :=
  match set_rowid (User.id u) (kw !! "id"),
        set_column users_table "name" (User.name u) (kw !! "name"),
        set_column users_table "email" (User.email u) (kw !! "email"),
        set_column users_table "age" (User.age u) (kw !! "age") with
  | inr i, inr n, inr e, inr a => inr (User.mk i n e a)
  | _, _, _, _ => inl IntegrityError
  end.

(** The statement rewrites the matching rows one at a time.  [before] holds
    the rows already visited, as they now are, [after] the rows still to
    visit.  A changed rowid or email is checked against every other row of
    the table as it stands at that moment. *)
Fixpoint update_rows (f kw : gmap string value)
  (before after : list User.t) : exn + list User.t :=
  match after with
  | [] => inr before
  | u :: after' =>
      if decide (user_matches f u) then
        match assign kw u with
        | inl e => inl e
        | inr u' =>
            let others := before ++ after' in
            if bool_decide (is_Some (kw !! "id")) &&
               bool_decide (User.id u' ∈ User.id <$> others)
            then inl IntegrityError
            else if bool_decide (is_Some (kw !! "email")) &&
                    bool_decide (User.email u' ∈ User.email <$> others)
            then inl IntegrityError
            else update_rows f kw (before ++ [u']) after'
        end
      else update_rows f kw (before ++ [u]) after'
  end.

(** [session.query(User).filter_by(...).update(kwargs)] as one statement:
    it either fails and changes nothing, or yields the new contents. *)
Definition update_users (f kw : gmap string value) (db : database)
  : exn + database :=
  if decide (known_keys User.columns f) then
    if decide (known_keys User.columns kw) then
      if decide (kw = ∅) then inl OperationalError
      else
        match update_rows f kw [] (users db) with
        | inl e => inl e
        | inr us => inr (Database us (tasks db))
        end
    else inl CompileError
  else inl InvalidRequestError.

(** *** SELECT users.id, users.name, count(tasks.id) FROM users
        LEFT OUTER JOIN tasks ON users.id = tasks.user_id GROUP BY users.id *)

(** The rows the join yields for one user: one per task that references
    it, or a single row with NULL for the task's columns. *)
Definition joined_rows (u : User.t) (ts : list Task.t)
  : list (User.t * option Task.t) :=
  match filter (owned_by u) ts with
  | [] => [(u, None)]
  | ts' => (λ t, (u, Some t)) <$> ts'
  end.

Definition outerjoin (us : list User.t) (ts : list Task.t)
  : list (User.t * option Task.t) :=
  u ← us; joined_rows u ts.

(** One group per distinct [users.id], in the order of the scan. *)
Definition group_by_user_id (rows : list (User.t * option Task.t))
  : list (list (User.t * option Task.t)) :=
  (λ k, filter (λ r, User.id r.1 = k) rows)
    <$> remove_dups ((λ r, User.id r.1) <$> rows).

(** [func.count(Task.id)] counts the rows of a group whose [tasks.id] is
    not NULL. *)
Definition count_task_id (g : list (User.t * option Task.t)) : Z :=
  Z.of_nat (length (filter (λ r, is_Some r.2) g)).

(** The result row of a group: the grouping column, the name found in the
    group, the count. *)
Definition result_row (g : list (User.t * option Task.t))
  : list (Z * value * Z) :=
  match g with
  | [] => []
  | (u, _) :: _ => [(User.id u, User.name u, count_task_id g)]
  end.

Definition select_users_tasks_count (db : database) : list (Z * value * Z) :=
  let rows := outerjoin (users_by_rowid (users db))
                        (tasks_by_rowid (tasks db)) in
  g ← group_by_user_id rows; result_row g.

(** ** The unit of work ([sessionmaker], lines 14-20)

    A session sees the committed contents of the file through its
    connection, and its own uncommitted changes through the transaction it
    has begun.  It is configured with [autoflush=False] (a query does not
    write pending objects) and [expire_on_commit=False] (objects keep their
    attributes after the commit). *)

Inductive entity :=
| new_User (name email age : value)                        (* pending *)
| new_Task (title description completed user_id : value)   (* pending *)
| a_User (u : User.t)                                      (* persistent *)
| a_Task (t : Task.t).                                     (* persistent *)

Record Session := mkSession {
  connection : database;
  transaction : option database;
  objects : list entity
}.

Definition view (s : Session) : database :=
  default (connection s) (transaction s).

Inductive outcome (A : Type) :=
| Return (a : A)
| Raise (e : exn).
Arguments Return {A} a.
Arguments Raise {A} e.

Definition M (A : Type) : Type := Session → outcome A * Session.

#[global] Instance M_ret : MRet M := λ A a s, (Return a, s).

#[global] Instance M_bind : MBind M := λ A B k m s,
  match m s with
  | (Return a, s') => k a s'
  | (Raise e, s') => (Raise e, s')
  end.

#[global] Instance M_fmap : FMap M := λ A B g m s,
  match m s with
  | (Return a, s') => (Return (g a), s')
  | (Raise e, s') => (Raise e, s')
  end.

Definition raise {A} (e : exn) : M A := λ s, (Raise e, s).

(** [try: body except Exception as e: handler e] *)
Definition try_except {A} (body : M A) (handler : exn → M A) : M A := λ s,
  match body s with
  | (Return a, s') => (Return a, s')
  | (Raise e, s') => handler e s'
  end.

Notation "'try' body 'except' handler" := (try_except body handler)
  (at level 10, body at level 200, handler at level 200,
   format "'[v' 'try'  '[' body ']' '/' 'except'  '[' handler ']' ']'").

(** [session.add(obj)]: the object is attached and waits for the flush; the
    result is its position among the session's objects, through which the
    caller's variable keeps denoting it. *)
Definition add (o : entity) : M nat := λ s,
  (Return (length (objects s)),
   mkSession (connection s) (transaction s) (objects s ++ [o])).

Definition flush_one (o : entity) (db : database) : exn + (entity * database) :=
  match o with
  | new_User n e a =>
      match insert_user n e a db with
      | inl x => inl x
      | inr (u, db') => inr (a_User u, db')
      end
  | new_Task t d c i =>
      match insert_task t d c i db with
      | inl x => inl x
      | inr (t', db') => inr (a_Task t', db')
      end
  | _ => inr (o, db)
  end.

Fixpoint flush_all (os : list entity) (db : database)
  : exn + (list entity * database) :=
  match os with
  | [] => inr ([], db)
  | o :: os' =>
      match flush_one o db with
      | inl x => inl x
      | inr (o', db') =>
          match flush_all os' db' with
          | inl x => inl x
          | inr (os'', db'') => inr (o' :: os'', db'')
          end
      end
  end.

(** Pending objects are inserted in the order they were added.  A flush that
    fails rolls the transaction back before the error reaches the caller. *)
Definition flush : M unit := λ s,
  match flush_all (objects s) (view s) with
  | inl x => (Raise x, mkSession (connection s) None (objects s))
  | inr (os, db') => (Return (), mkSession (connection s) (Some db') os)
  end.

(** [session.commit()] *)
Definition end_transaction : M unit := λ s,
  (Return (), mkSession (view s) None (objects s)).

Definition commit : M unit := flush;; end_transaction.

Definition persistent (o : entity) : bool :=
  match o with
  | a_User _ | a_Task _ => true
  | _ => false
  end.

(** [session.rollback()]: the transaction's changes are dropped and the
    pending objects leave the session. *)
Definition rollback : M unit := λ s,
  (Return (),
   mkSession (connection s) None (List.filter persistent (objects s))).

(** What the caller's variable denotes once the object is persistent. *)
Definition the_User (h : nat) : M User.t := λ s,
  match objects s !! h with
  | Some (a_User u) => (Return u, s)
  | _ => (Raise InvalidRequestError, s)
  end.

Definition the_Task (h : nat) : M Task.t := λ s,
  match objects s !! h with
  | Some (a_Task t) => (Return t, s)
  | _ => (Raise InvalidRequestError, s)
  end.

(** A statement runs inside the transaction, which begins with the first
    statement of the session. *)
Definition execute {A} (stmt : database → exn + A) : M A := λ s,
  match stmt (view s) with
  | inl x => (Raise x, s)
  | inr a => (Return a, mkSession (connection s) (Some (view s)) (objects s))
  end.

(** [session.query(User).filter_by(...).options(joinedload(User.tasks))] *)
Definition query_User_joinedload (f : gmap string value)
  : M (list User.loaded) :=
  execute (λ db,
    match select_users f db with
    | inl x => inl x
    | inr us => inr (load_tasks db <$> us)
    end).

(** [session.query(Task).filter_by(...)] *)
Definition query_Task (f : gmap string value) : M (list Task.t) :=
  execute (select_tasks f).

(** [.first()] and [.all()] *)
Definition first {A} (q : M (list A)) : M (option A) := head <$> q.
Definition all {A} (q : M (list A)) : M (list A) := q.

(** [session.query(User).filter_by(...).update(kwargs)] *)
Definition query_User_update (f kw : gmap string value) : M unit := λ s,
  match update_users f kw (view s) with
  | inl x => (Raise x, s)
  | inr db' =>
      (Return (), mkSession (connection s) (Some db') (objects s))
  end.

(** [with get_session() as session: body]: a fresh session on the engine;
    leaving the block closes it, which drops whatever was not committed. *)
Definition with_session {A} (body : M A) (db : database)
  : outcome A * database :=
  let '(r, s) := body (mkSession db None []) in (r, connection s).

(** ** UserRepository (lines 58-118) *)

Definition or_empty (filter_by : option (gmap string value))
  : gmap string value :=
  match filter_by with
  | None => ∅
  | Some d => d
  end.

Definition create_user (name email : string) (age : Z)
  : database → outcome User.t * database :=
  with_session (
    try
      user ← add (new_User (VStr name) (VStr email) (VInt age));
      commit;;
      the_User user
    except λ e, rollback;; raise e).

Definition get_user (filter_by : option (gmap string value))
  : database → outcome (option User.loaded) * database :=
  let filter_by := or_empty filter_by in
  with_session (first (query_User_joinedload filter_by)).

Definition get_users (filter_by : option (gmap string value))
  : database → outcome (list User.loaded) * database :=
  let filter_by := or_empty filter_by in
  with_session (all (query_User_joinedload filter_by)).

Definition update_user (filter_by : option (gmap string value))
  (kwargs : gmap string value)
  : database → outcome (option User.loaded) * database :=
  let filter_by := or_empty filter_by in
  with_session (
    try
      query_User_update filter_by kwargs;;
      commit;;
      first (query_User_joinedload filter_by)
    except λ e, rollback;; raise e).

Definition get_users_tasks_count
  : database → outcome (list (Z * value * Z)) * database :=
  with_session (all (execute (λ db, inr (select_users_tasks_count db)))).

(** ** TaskRepository (lines 121-144) *)

Definition create_task (title description : string) (completed : bool)
  (user_id : option Z) : database → outcome Task.t * database :=
  with_session (
    try
      task ← add (new_Task (VStr title) (VStr description)
                           (VInt (Z.b2z completed))
                           (from_option VInt VNone user_id));
      commit;;
      the_Task task
    except λ e, rollback;; raise e).

Definition get_task (filter_by : option (gmap string value))
  : database → outcome (option Task.t) * database :=
  let filter_by := or_empty filter_by in
  with_session (first (query_Task filter_by)).

(** ** The driver (lines 147-169)

    The statements of the script run one after the other on the store; an
    exception that a call raises, or the [AttributeError] of reading [.id]
    from [None], ends the script there.  What the four [print] calls are
    given is the script's result. *)

Inductive script_exn :=
| Raised (e : exn)
| AttributeError.

Definition Script (A : Type) : Type := database → (script_exn + A) * database.

#[global] Instance Script_ret : MRet Script := λ A a db, (inr a, db).

#[global] Instance Script_bind : MBind Script := λ A B k m db,
  match m db with
  | (inr a, db') => k a db'
  | (inl e, db') => (inl e, db')
  end.

Definition call {A} (method : database → outcome A * database) : Script A :=
  λ db,
  match method db with
  | (Return a, db') => (inr a, db')
  | (Raise e, db') => (inl (Raised e), db')
  end.

(** [user.id] for what [get_user] returned. *)
Definition id_of (user : option User.loaded) : Script Z := λ db,
  match user with
  | Some found => (inr (User.id (User.columns_of found)), db)
  | None => (inl AttributeError, db)
  end.

Record printed := Printed {
  printed_user1 : option User.loaded;
  printed_users : list User.loaded;
  printed_updated_user : option User.loaded;
  printed_users_tasks_count : list (Z * value * Z)
}.

(** Lines 150-169. *)
Definition script : Script printed :=
  user1 ← call (create_user "John Doe" "john.doe@example.com" 30);
  user2 ← call (create_user "John Snow" "john2.doe@example.com" 33);
  user3 ← call (create_user "John 3" "john3.doe@example.com" 11);
  task ← call (create_task "Buy groceries" "Buy groceries" false
                 (Some (User.id user1)));
  task1 ← call (get_task (Some {[ "id" := VInt 1 ]}));
  user1 ← call (get_user None);
  users ← call (get_users None);
  user1_id ← id_of user1;
  updated_user ← call (update_user (Some {[ "id" := VInt user1_id ]})
                         {[ "age" := VInt 111 ]});
  users_tasks_count ← call get_users_tasks_count;
  mret (Printed user1 users updated_user users_tasks_count).

(** The module as a whole: lines 54-55 drop and recreate the tables, whatever
    example.db held, and the script runs on the empty schema. *)
Definition main (db : database) : (script_exn + printed) * database :=
  script empty_db.

(** * Vocabulary of the properties *)

(** ** The store after the driver's first statements (lines 150-156) *)

(** The store a call leaves. *)
Definition store_after {A} (r : outcome A * database) : database := r.2.

Definition demo_db : database :=
  let db1 := store_after (create_user "John Doe" "john.doe@example.com" 30 empty_db) in
  let db2 := store_after (create_user "John Snow" "john2.doe@example.com" 33 db1) in
  let db3 := store_after (create_user "John 3" "john3.doe@example.com" 11 db2) in
  store_after (create_task "Buy groceries" "Buy groceries" false (Some 1) db3).

(** ** Values of the declared types

    SQLite holds signed integers of 64 bits, and the driver raises
    [OverflowError] when it is asked to bind a Python integer outside that
    range.  A table without AUTOINCREMENT whose largest rowid is the largest
    such integer gives a new row a rowid chosen at random.  A value that is
    not of the declared type of the column it meets is converted by the
    column's affinity before it is stored or compared.  None of the three is
    part of the embedding: what is stated of a call that binds values is
    stated for values of the declared types, and of an INSERT for a table
    whose next rowid is an integer of 64 bits. *)

Definition int64 (n : Z) : Prop := - 2 ^ 63 ≤ n < 2 ^ 63.

#[global] Instance int64_dec n : Decision (int64 n).
Proof. unfold int64. apply _. Defined.

(** The types passed to [mapped_column] on lines 29-32 and 42-47. *)
Inductive column_type := IntegerT | StringT | BooleanT.

Definition users_types : list (string * column_type) :=
  [ ("id", IntegerT); ("name", StringT); ("email", StringT);
    ("age", IntegerT) ].

Definition tasks_types : list (string * column_type) :=
  [ ("id", IntegerT); ("title", StringT); ("description", StringT);
    ("completed", BooleanT); ("user_id", IntegerT) ].

(** [None] may be bound for a column of any type. *)
Definition of_type (ty : column_type) (v : value) : Prop :=
  match ty, v with
  | _, VNone => True
  | IntegerT, VInt n => int64 n
  | StringT, VStr _ => True
  | BooleanT, VInt n => n = 0 ∨ n = 1
  | _, _ => False
  end.

#[global] Instance of_type_dec ty v : Decision (of_type ty v).
Proof. destruct ty, v; simpl; apply _. Defined.

(** A dictionary whose keys are columns of the table and whose values are of
    the types of these columns. *)
Definition typed (types : list (string * column_type))
  (d : gmap string value) : Prop :=
  map_Forall (λ k v, Exists (λ c, c.1 = k ∧ of_type c.2 v) types) d.

#[global] Instance typed_dec types d : Decision (typed types d).
Proof. unfold typed. apply _. Defined.

(** ** Answers of the queries *)

(** What [get_user] answers for a filter: either a user of the store that
    agrees with every entry of the filter, has the least rowid among the
    users that do, and carries exactly the tasks that reference it; or
    nothing, when no user of the store agrees with the filter. *)
Definition first_match (filter_by : gmap string value) (db : database)
  (r : option User.loaded) : Prop :=
  match r with
  | Some found =>
      let u := User.columns_of found in
      u ∈ users db ∧
      (∀ k v, filter_by !! k = Some v → User.get k u = Some v) ∧
      (∀ u', u' ∈ users db → user_matches filter_by u' →
             User.id u ≤ User.id u') ∧
      (∀ t, t ∈ User.tasks found ↔
            t ∈ tasks db ∧ Task.user_id t = VInt (User.id u))
  | None => ∀ u, u ∈ users db → ¬ user_matches filter_by u
  end.

(** The outcome claimed for the pair of calls: the user is created, and the
    lookup by its email returns it with the given fields and no task. *)
Definition created_and_found_without_tasks (name email : string) (age : Z)
  (db : database) : Prop :=
  ∃ u db',
    create_user name email age db = (Return u, db') ∧
    get_user (Some {[ "email" := VStr email ]}) db'
      = (Return (Some (User.Loaded u [])), db') ∧
    User.name u = VStr name ∧ User.email u = VStr email ∧
    User.age u = VInt age.

(** The number of stored tasks whose [user_id] is the rowid of [u], and the
    row of [get_users_tasks_count] for [u]. *)
Definition tasks_owned (db : database) (u : User.t) : Z :=
  Z.of_nat (length (filter (owned_by u) (tasks db))).

Definition count_row (db : database) (u : User.t) : Z * value * Z :=
  (User.id u, User.name u, tasks_owned db u).

Definition total (rows : list (Z * value * Z)) : Z := foldr Z.add 0 rows.*2.


(** ** Units of work *)

(** A method is atomic for the unit of work [work] it wraps when a failure of
    the work reaches the caller as the same exception with the store as it
    was before the call, and a success is returned with the store holding
    exactly what the work wrote. *)
Definition atomic {A} (work : database → exn + (A * database))
  (method : database → outcome A * database) : Prop :=
  ∀ db,
    (∀ e, work db = inl e → method db = (Raise e, db)) ∧
    (∀ a db', work db = inr (a, db') → method db = (Return a, db')).

(** The unit of work of [update_user]: the UPDATE, then the row fetched from
    what the UPDATE left. *)
Definition update_and_fetch (filter_by : option (gmap string value))
  (kwargs : gmap string value) (db : database)
  : exn + (option User.loaded * database) :=
  match update_users (or_empty filter_by) kwargs db with
  | inl e => inl e
  | inr db' =>
      match select_users (or_empty filter_by) db' with
      | inl e => inl e
      | inr us => inr (head (load_tasks db' <$> us), db')
      end
  end.

(** What the UPDATE leaves in place of a row: the assigned row when the
    WHERE clause holds of it, the row itself otherwise. *)
Definition updated_row (f kw : gmap string value) (u u' : User.t) : Prop :=
  if decide (user_matches f u) then assign kw u = inr u' else u' = u.

(** The row an UPDATE of [name] and [age] alone writes in place of [u]. *)
Definition reassigned (kw : gmap string value) (u : User.t) : User.t :=
  User.mk (User.id u) (default (User.name u) (kw !! "name"))
          (User.email u) (default (User.age u) (kw !! "age")).


(** ** Reachable stores *)

(** One call of a repository method, seen from the store. *)
Inductive step (db : database) : database → Prop :=
| step_create_user name email age :
    step db (store_after (create_user name email age db))
| step_get_user filter_by :
    step db (store_after (get_user filter_by db))
| step_get_users filter_by :
    step db (store_after (get_users filter_by db))
| step_update_user filter_by kwargs :
    step db (store_after (update_user filter_by kwargs db))
| step_get_users_tasks_count :
    step db (store_after (get_users_tasks_count db))
| step_create_task title description completed user_id :
    step db (store_after (create_task title description completed user_id db))
| step_get_task filter_by :
    step db (store_after (get_task filter_by db)).

(** The stores the program can be in: those that calls of the repository
    methods produce from the freshly created schema. *)
Definition reachable : database → Prop := rtc step empty_db.

(** PRIMARY KEY on [users.id] and UNIQUE on [users.email]. *)
Definition consistent (db : database) : Prop :=
  NoDup (User.id <$> users db) ∧ NoDup (User.email <$> users db).

(** The row of [get_users_tasks_count] for a user as [get_users] returns
    it, and a row after one more task was stored for the rowid [owner]. *)
Definition row_of_loaded (found : User.loaded) : Z * value * Z :=
  (User.id (User.columns_of found), User.name (User.columns_of found),
   Z.of_nat (length (User.tasks found))).

Definition one_more_for (owner : Z) (row : Z * value * Z) : Z * value * Z :=
  (row.1.1, row.1.2, if decide (row.1.1 = owner) then row.2 + 1 else row.2).

(** The task references a stored user. *)
Definition has_owner (db : database) (t : Task.t) : Prop :=
  Exists (λ u, owned_by u t) (users db).

#[global] Instance has_owner_dec db t : Decision (has_owner db t).
Proof. unfold has_owner. apply _. Defined.

(** ** Well-formed stores *)

(** What the declared constraints and the typed parameters make of a store:
    distinct rowids in both tables, no NULL in a column of [users], and every
    task made of two strings, a boolean and an integer [user_id]. *)
Definition well_formed (db : database) : Prop :=
  NoDup (User.id <$> users db) ∧
  NoDup (Task.id <$> tasks db) ∧
  (∀ u, u ∈ users db →
     User.name u ≠ VNone ∧ User.email u ≠ VNone ∧ User.age u ≠ VNone) ∧
  (∀ t, t ∈ tasks db →
     ∃ title description completed owner,
       t = Task.mk (Task.id t) (VStr title) (VStr description)
             (VInt (Z.b2z completed)) (VInt owner)).

(** * Properties *)

(** A closed decidable statement, settled by evaluation. *)
Ltac by_evaluation := apply (bool_decide_unpack _); vm_compute; exact I.

Example columns_as_declared :
  User.columns = column_name <$> users_table ∧
  Task.columns = column_name <$> tasks_table.
Proof. split; reflexivity. Qed.

(** ** Each repository method as one statement on the store

    Running the session, the [try], the [commit] and the closing of the
    [with] block leaves, for each method, the outcome of the statement the
    method issues. *)

Lemma create_user_run name email age db :
  create_user name email age db =
  match insert_user (VStr name) (VStr email) (VInt age) db with
  | inr (u, db') => (Return u, db')
  | inl e => (Raise e, db)
  end.
Proof.
  unfold create_user, with_session, try_except, mbind, M_bind, add, commit,
    mbind, M_bind, flush, view; simpl.
  destruct (insert_user _ _ _ db) as [e | [u db']]; reflexivity.
Qed.

Lemma create_task_run title description completed user_id db :
  create_task title description completed user_id db =
  match insert_task (VStr title) (VStr description) (VInt (Z.b2z completed))
          (from_option VInt VNone user_id) db with
  | inr (t, db') => (Return t, db')
  | inl e => (Raise e, db)
  end.
Proof.
  unfold create_task, with_session, try_except, mbind, M_bind, add, commit,
    mbind, M_bind, flush, view; simpl.
  destruct (insert_task _ _ _ _ db) as [e | [t db']]; reflexivity.
Qed.

Lemma get_user_run filter_by db :
  get_user filter_by db =
  match select_users (or_empty filter_by) db with
  | inr us => (Return (head (load_tasks db <$> us)), db)
  | inl e => (Raise e, db)
  end.
Proof.
  unfold get_user, with_session, first, query_User_joinedload, execute,
    fmap, M_fmap, view; simpl.
  destruct (select_users _ db); reflexivity.
Qed.

Lemma get_users_run filter_by db :
  get_users filter_by db =
  match select_users (or_empty filter_by) db with
  | inr us => (Return (load_tasks db <$> us), db)
  | inl e => (Raise e, db)
  end.
Proof.
  unfold get_users, with_session, all, query_User_joinedload, execute,
    view; simpl.
  destruct (select_users _ db); reflexivity.
Qed.

Lemma get_task_run filter_by db :
  get_task filter_by db =
  match select_tasks (or_empty filter_by) db with
  | inr ts => (Return (head ts), db)
  | inl e => (Raise e, db)
  end.
Proof.
  unfold get_task, with_session, first, query_Task, execute,
    fmap, M_fmap, view; simpl.
  destruct (select_tasks _ db); reflexivity.
Qed.

Lemma get_users_tasks_count_run db :
  get_users_tasks_count db = (Return (select_users_tasks_count db), db).
Proof. reflexivity. Qed.

Lemma select_users_update_users f kw db db' :
  update_users f kw db = inr db' →
  select_users f db' =
    inr (filter (user_matches f) (users_by_rowid (users db'))).
Proof.
  unfold update_users, select_users. intros H.
  destruct (decide (known_keys User.columns f)); [reflexivity | discriminate].
Qed.

Lemma update_user_run filter_by kwargs db :
  update_user filter_by kwargs db =
  match update_users (or_empty filter_by) kwargs db with
  | inr db' => ((get_user filter_by db').1, db')
  | inl e => (Raise e, db)
  end.
Proof.
  destruct (update_users _ kwargs db) as [e | db'] eqn:Hup.
  - unfold update_user, with_session, try_except, mbind, M_bind,
      query_User_update, view; simpl. rewrite Hup. reflexivity.
  - rewrite get_user_run, (select_users_update_users _ _ _ _ Hup).
    unfold update_user, with_session, try_except, mbind, M_bind,
      query_User_update, commit, mbind, M_bind, flush, end_transaction, first,
      query_User_joinedload, execute, fmap, M_fmap, view; simpl.
    rewrite Hup; simpl.
    rewrite (select_users_update_users _ _ _ _ Hup). reflexivity.
Qed.

(** ** Table scans *)

#[global] Instance user_rowid_le_refl : Reflexive user_rowid_le.
Proof. unfold user_rowid_le. intros u. lia. Qed.

#[global] Instance user_rowid_le_trans : Transitive user_rowid_le.
Proof. unfold user_rowid_le. intros u v w. lia. Qed.

#[global] Instance user_rowid_le_total : Total user_rowid_le.
Proof. unfold user_rowid_le. intros u v. lia. Qed.

#[global] Instance task_rowid_le_trans : Transitive task_rowid_le.
Proof. unfold task_rowid_le. intros u v w. lia. Qed.

#[global] Instance task_rowid_le_total : Total task_rowid_le.
Proof. unfold task_rowid_le. intros u v. lia. Qed.

Lemma users_by_rowid_perm l : users_by_rowid l ≡ₚ l.
Proof. apply merge_sort_Permutation. Qed.

Lemma tasks_by_rowid_perm l : tasks_by_rowid l ≡ₚ l.
Proof. apply merge_sort_Permutation. Qed.

Lemma elem_of_users_by_rowid u l : u ∈ users_by_rowid l ↔ u ∈ l.
Proof. by rewrite users_by_rowid_perm. Qed.

Lemma elem_of_tasks_by_rowid t l : t ∈ tasks_by_rowid l ↔ t ∈ l.
Proof. by rewrite tasks_by_rowid_perm. Qed.

Lemma users_by_rowid_sorted l :
  StronglySorted user_rowid_le (users_by_rowid l).
Proof. apply StronglySorted_merge_sort; apply _. Qed.

Section first_of_scan.
Context {A : Type} (R : relation A) `{!Reflexive R}.
Context (P : A → Prop) `{!∀ x, Decision (P x)}.

(** The first row a sorted scan keeps satisfies the condition and comes
    before every other row that does. *)
Lemma head_filter_sorted l x :
  StronglySorted R l →
  head (filter P l) = Some x →
  P x ∧ x ∈ l ∧ ∀ y, y ∈ l → P y → R x y.
Proof.
  intros Hs Hh.
  destruct (head_filter_Some P l x Hh) as (l1 & l2 & -> & Hl1).
  assert (Hx : x ∈ filter P (l1 ++ x :: l2))
    by (by apply head_Some_elem_of).
  apply list_elem_of_filter in Hx as [HPx Hin].
  split_and!; [done | done |].
  intros y Hy HPy.
  apply elem_of_app in Hy as [Hy | Hy].
  - rewrite Forall_forall in Hl1. by destruct (Hl1 y Hy).
  - apply StronglySorted_app_1_r in Hs.
    apply elem_of_cons in Hy as [-> | Hy]; [reflexivity |].
    apply StronglySorted_inv in Hs as [_ Hall].
    rewrite Forall_forall in Hall. by apply Hall.
Qed.

Lemma head_filter_None l :
  head (filter P l) = None ↔ ∀ x, x ∈ l → ¬ P x.
Proof.
  rewrite head_None. split.
  - intros Hnil x Hx HPx. by apply (filter_nil_not_elem_of P l x).
  - intros Hno. induction l as [| y l IH]; [done |].
    rewrite filter_cons_False by (apply Hno; left).
    apply IH. intros x Hx. apply Hno. by right.
Qed.

(** A condition met by a single row of the table selects that row,
    whatever the order of the scan. *)
Lemma filter_single l l' x :
  l' ≡ₚ l ++ [x] → (∀ y, y ∈ l → ¬ P y) → P x → filter P l' = [x].
Proof.
  intros Hp Hno HPx. apply Permutation_singleton_r.
  rewrite Hp, filter_app, (filter_cons_True P x []) by done.
  assert (filter P l = []) as ->; [| done].
  apply head_None, head_filter_None. done.
Qed.
End first_of_scan.

Lemma user_matches_spec f u :
  user_matches f u ↔ ∀ k v, f !! k = Some v → User.get k u = Some v.
Proof. reflexivity. Qed.

Lemma User_get_id u : User.get "id" u = Some (VInt (User.id u)).
Proof. reflexivity. Qed.


Lemma User_get_email u : User.get "email" u = Some (User.email u).
Proof. reflexivity. Qed.


Lemma user_matches_singleton k v u :
  user_matches {[ k := v ]} u ↔ User.get k u = Some v.
Proof. unfold user_matches. by rewrite map_Forall_singleton. Qed.

Lemma user_matches_empty u : user_matches ∅ u.
Proof. apply map_Forall_empty. Qed.

Lemma known_keys_singleton cols k v :
  k ∈ cols → known_keys cols {[ k := v ]}.
Proof. intros. unfold known_keys. by rewrite map_Forall_singleton. Qed.

Lemma known_keys_empty cols : known_keys cols ∅.
Proof. apply map_Forall_empty. Qed.

Lemma select_users_known f db :
  known_keys User.columns f →
  select_users f db = inr (filter (user_matches f) (users_by_rowid (users db))).
Proof. intros. unfold select_users. by rewrite decide_True. Qed.

Lemma get_user_known f db :
  known_keys User.columns f →
  get_user (Some f) db =
  (Return (head (load_tasks db <$>
                   filter (user_matches f) (users_by_rowid (users db)))), db).
Proof.
  intros Hk. rewrite get_user_run. simpl. by rewrite select_users_known.
Qed.

Lemma elem_of_load_tasks db u t :
  t ∈ User.tasks (load_tasks db u) ↔
  t ∈ tasks db ∧ Task.user_id t = VInt (User.id u).
Proof.
  unfold load_tasks; simpl.
  rewrite list_elem_of_filter, elem_of_tasks_by_rowid. unfold owned_by. tauto.
Qed.


(** ** Dictionaries of the declared types *)

Lemma typed_known_users d : typed users_types d → known_keys User.columns d.
Proof.
  intros Ht k v Hkv. specialize (Ht k v Hkv). simpl in Ht.
  apply Exists_exists in Ht as (c & Hc & <- & _).
  apply (list_elem_of_fmap_2 fst) in Hc. exact Hc.
Qed.

Lemma typed_known_tasks d : typed tasks_types d → known_keys Task.columns d.
Proof.
  intros Ht k v Hkv. specialize (Ht k v Hkv). simpl in Ht.
  apply Exists_exists in Ht as (c & Hc & <- & _).
  apply (list_elem_of_fmap_2 fst) in Hc. exact Hc.
Qed.

(** ** get_user *)

Lemma select_first_match f db :
  first_match f db
    (head (load_tasks db <$> filter (user_matches f) (users_by_rowid (users db)))).
Proof.
  destruct (head (filter (user_matches f) (users_by_rowid (users db))))
    as [u |] eqn:Hh.
  - destruct (filter _ _) as [| u0 l] eqn:Hf; [discriminate |].
    simpl in Hh; injection Hh as ->. simpl.
    assert (Hh : head (filter (user_matches f) (users_by_rowid (users db)))
                 = Some u) by (by rewrite Hf).
    apply (head_filter_sorted user_rowid_le) in Hh
      as (Hm & Hin & Hle); [| apply users_by_rowid_sorted].
    split_and!.
    + by apply elem_of_users_by_rowid.
    + exact Hm.
    + intros u' Hu' Hm'. apply Hle; [by apply elem_of_users_by_rowid | done].
    + intros t. apply elem_of_load_tasks.
  - apply head_None in Hh. rewrite Hh. simpl.
    intros u Hu Hm.
    apply (filter_nil_not_elem_of _ _ u Hh Hm).
    by apply elem_of_users_by_rowid.
Qed.

(** C6. For a filter whose keys are columns of [users] and whose values
    are of the types of these columns, [get_user] does not raise and leaves
    the store as it was; its answer is the matching user that comes first in
    storage order (ascending rowid), with the tasks owned by that user
    loaded, or [None] when no user matches.  With the empty filter every
    user matches, so the answer is the first user. *)
Theorem get_user_returns_first_match (filter_by : gmap string value)
  (db : database) :
  typed users_types filter_by →
  ∃ r, get_user (Some filter_by) db = (Return r, db) ∧
       first_match filter_by db r ∧
       (filter_by = ∅ →
        r = load_tasks db <$> head (users_by_rowid (users db))).
Proof.
  intros Hk%typed_known_users. rewrite get_user_run. simpl.
  rewrite (select_users_known _ _ Hk).
  eexists; split_and!; [reflexivity | apply select_first_match |].
  intros ->.
  assert (Hall : ∀ l : list User.t, filter (user_matches ∅) l = l).
  { induction l as [| u l IH]; [done |].
    rewrite filter_cons_True by apply user_matches_empty. by rewrite IH. }
  rewrite Hall. by destruct (users_by_rowid (users db)).
Qed.

Lemma get_user_returns_first_match_witness :
  typed users_types {[ "age" := VInt 33 ]} ∧
  ∃ r, get_user (Some {[ "age" := VInt 33 ]}) demo_db = (Return r, demo_db) ∧
       first_match {[ "age" := VInt 33 ]} demo_db r ∧
       (({[ "age" := VInt 33 ]} : gmap string value) = ∅ →
        r = load_tasks demo_db <$> head (users_by_rowid (users demo_db))).
Proof.
  assert (H : typed users_types {[ "age" := VInt 33 ]}).
  { by_evaluation. }
  split; [exact H |].
  exact (get_user_returns_first_match {[ "age" := VInt 33 ]} demo_db H).
Defined.

(** ** create_user followed by get_user *)

Lemma insert_user_fresh name email age db :
  VStr email ∉ User.email <$> users db →
  insert_user (VStr name) (VStr email) (VInt age) db =
  let u := User.mk (next_rowid (User.id <$> users db))
                   (VStr name) (VStr email) (VInt age) in
  inr (u, Database (users db ++ [u]) (tasks db)).
Proof.
  intros Hfresh. unfold insert_user, not_null_ok, nullable. simpl.
  by rewrite bool_decide_eq_false_2.
Qed.

Lemma insert_user_taken name email age db :
  VStr email ∈ User.email <$> users db →
  insert_user (VStr name) (VStr email) (VInt age) db = inl IntegrityError.
Proof.
  intros Htaken. unfold insert_user, not_null_ok, nullable. simpl.
  by rewrite bool_decide_eq_true_2.
Qed.

(** C1, as amended.  Let [age] be an integer of 64 bits and let the largest
    rowid of [users] leave room for the next one.  When the email is not yet
    stored and no stored task already carries, as its [user_id], the rowid
    the new user is about to receive, [create_user] followed by [get_user]
    on the email returns the created user with its fields and an empty
    [tasks]. *)
Theorem create_user_then_get_user_by_email (name email : string) (age : Z)
  (db : database) :
  int64 age →
  int64 (next_rowid (User.id <$> users db)) →
  VStr email ∉ User.email <$> users db →
  VInt (next_rowid (User.id <$> users db)) ∉ Task.user_id <$> tasks db →
  created_and_found_without_tasks name email age db.
Proof.
  intros _ _ Hfresh Hfree. unfold created_and_found_without_tasks.
  rewrite create_user_run, insert_user_fresh by done. simpl.
  set (u := User.mk _ _ _ _).
  exists u, (Database (users db ++ [u]) (tasks db)).
  split_and!; try reflexivity.
  rewrite get_user_run. simpl.
  rewrite select_users_known
    by (apply known_keys_singleton; repeat constructor).
  simpl.
  rewrite (filter_single _ (users db) _ u).
  - simpl. unfold load_tasks. simpl.
    assert (filter (owned_by u) (tasks_by_rowid (tasks db)) = []) as ->;
      [| reflexivity].
    apply head_None, head_filter_None.
    intros t Ht Hown. apply Hfree.
    rewrite elem_of_tasks_by_rowid in Ht. unfold owned_by in Hown.
    apply list_elem_of_fmap. exists t. split; [| done].
    rewrite Hown. reflexivity.
  - apply users_by_rowid_perm.
  - intros u' Hu' Hm. apply user_matches_singleton in Hm.
    apply Hfresh. apply list_elem_of_fmap. exists u'.
    split; [| done]. rewrite User_get_email in Hm. by injection Hm.
  - by apply user_matches_singleton.
Qed.

Lemma create_user_then_get_user_by_email_witness :
  int64 41 ∧
  int64 (next_rowid (User.id <$> users demo_db)) ∧
  (VStr "ann@example.com" ∉ User.email <$> users demo_db) ∧
  (VInt (next_rowid (User.id <$> users demo_db))
     ∉ Task.user_id <$> tasks demo_db) ∧
  created_and_found_without_tasks "Ann" "ann@example.com" 41 demo_db.
Proof.
  assert (H0 : int64 41) by by_evaluation.
  assert (H0' : int64 (next_rowid (User.id <$> users demo_db)))
    by by_evaluation.
  assert (H1 : VStr "ann@example.com" ∉ User.email <$> users demo_db)
    by by_evaluation.
  assert (H2 : VInt (next_rowid (User.id <$> users demo_db))
                 ∉ Task.user_id <$> tasks demo_db)
    by by_evaluation.
  split_and!; [exact H0 | exact H0' | exact H1 | exact H2 |].
  exact (create_user_then_get_user_by_email
           "Ann" "ann@example.com" 41 demo_db H0 H0' H1 H2).
Defined.

(** C1 as stated fails: the store does not check [user_id] against [users],
    so a task may carry the rowid of a user that does not exist yet.  After
    [create_task("t", "d", False, user_id=1)] on the empty store the email is
    not present; the user then created receives rowid 1, and [get_user] on
    its email returns it with that task in [tasks]. *)
Lemma create_user_then_get_user_by_email_counterexample :
  (VStr "ann@example.com"
     ∉ User.email <$>
         users (store_after (create_task "t" "d" false (Some 1) empty_db))) ∧
  (∃ u db',
     create_user "Ann" "ann@example.com" 41
       (store_after (create_task "t" "d" false (Some 1) empty_db))
       = (Return u, db') ∧
     get_user (Some {[ "email" := VStr "ann@example.com" ]}) db'
       = (Return
            (Some (User.Loaded u
               [Task.mk 1 (VStr "t") (VStr "d") (VInt 0) (VInt 1)])),
          db')) ∧
  (¬ created_and_found_without_tasks "Ann" "ann@example.com" 41
       (store_after (create_task "t" "d" false (Some 1) empty_db))).
Proof.
  split_and!.
  - by_evaluation.
  - eexists _, _. split; vm_compute; reflexivity.
  - intros (u & db' & Hc & Hg & _).
    vm_compute in Hc. injection Hc as <- <-.
    vm_compute in Hg. discriminate Hg.
Qed.

(** ** create_task *)

Lemma insert_task_owned title description completed (U : Z) db :
  insert_task (VStr title) (VStr description) (VInt (Z.b2z completed))
    (VInt U) db =
  let t := Task.mk (next_rowid (Task.id <$> tasks db)) (VStr title)
             (VStr description) (VInt (Z.b2z completed)) (VInt U) in
  inr (t, Database (users db) (tasks db ++ [t])).
Proof. reflexivity. Qed.

(** C7, on the code.  [tasks.user_id] is declared [Mapped[int]]: the column
    is NOT NULL, so the INSERT that [create_task] issues when [user_id] is
    left out fails in every state of the store; the method rolls back and
    raises, and nothing is stored. *)
Theorem create_task_without_user_id_raises (title description : string)
  (completed : bool) (db : database) :
  create_task title description completed None db = (Raise IntegrityError, db).
Proof. rewrite create_task_run. reflexivity. Qed.

(** C8.  For a rowid [U] that some stored user has, [create_task] with
    [user_id=U] succeeds and stores a task with the given fields, and
    [get_user] on [{"id": U}] then returns a user with that rowid whose
    loaded tasks contain the task. *)
Theorem create_task_then_get_user (title description : string)
  (completed : bool) (U : Z) (db : database) :
  U ∈ User.id <$> users db →
  ∃ t db' found,
    create_task title description completed (Some U) db = (Return t, db') ∧
    Task.title t = VStr title ∧ Task.description t = VStr description ∧
    Task.completed t = VInt (Z.b2z completed) ∧ Task.user_id t = VInt U ∧
    get_user (Some {[ "id" := VInt U ]}) db' = (Return (Some found), db') ∧
    User.id (User.columns_of found) = U ∧
    t ∈ User.tasks found.
Proof.
  intros HU. rewrite create_task_run. unfold from_option.
  rewrite insert_task_owned. simpl.
  set (t := Task.mk _ _ _ _ _).
  set (db' := Database _ _).
  assert (Hk : known_keys User.columns {[ "id" := VInt U ]})
    by (apply known_keys_singleton; repeat constructor).
  pose proof (get_user_run (Some {[ "id" := VInt U ]}) db') as Hrun.
  simpl in Hrun. rewrite (select_users_known _ _ Hk) in Hrun.
  pose proof (select_first_match {[ "id" := VInt U ]} db') as Hfm.
  destruct (head _) as [found |].
  - exists t, db', found.
    destruct Hfm as (_ & Hm & _ & Htasks).
    specialize (Hm "id" (VInt U) (lookup_singleton_eq _ _)).
    rewrite User_get_id in Hm. injection Hm as Hid.
    split_and!; [reflexivity .. | exact Hrun | exact Hid |].
    apply Htasks. split; [| by rewrite Hid].
    subst db'. simpl. apply elem_of_app. right. by left.
  - exfalso. apply list_elem_of_fmap in HU as (u & -> & Hu).
    apply (Hfm u Hu). by apply user_matches_singleton.
Qed.

Lemma create_task_then_get_user_witness :
  2 ∈ User.id <$> users demo_db ∧
  ∃ t db' found,
    create_task "Call home" "" true (Some 2) demo_db = (Return t, db') ∧
    Task.title t = VStr "Call home" ∧ Task.description t = VStr "" ∧
    Task.completed t = VInt (Z.b2z true) ∧ Task.user_id t = VInt 2 ∧
    get_user (Some {[ "id" := VInt 2 ]}) db' = (Return (Some found), db') ∧
    User.id (User.columns_of found) = 2 ∧
    t ∈ User.tasks found.
Proof.
  assert (H : 2 ∈ User.id <$> users demo_db).
  { by_evaluation. }
  split; [exact H |].
  exact (create_task_then_get_user "Call home" "" true 2 demo_db H).
Defined.

(** ** Commit or roll back *)

(** C2.  [create_user], [create_task] and [update_user] are atomic: the
    store after the call is the committed result of the whole unit of work,
    or, when the work raised, the store before the call together with the
    very exception the work raised. *)
Theorem mutations_are_atomic :
  (∀ name email age,
     atomic (insert_user (VStr name) (VStr email) (VInt age))
            (create_user name email age)) ∧
  (∀ title description completed user_id,
     atomic (insert_task (VStr title) (VStr description)
               (VInt (Z.b2z completed)) (from_option VInt VNone user_id))
            (create_task title description completed user_id)) ∧
  (∀ filter_by kwargs,
     atomic (update_and_fetch filter_by kwargs)
            (update_user filter_by kwargs)).
Proof.
  split_and!.
  - intros name email age db. rewrite create_user_run.
    split; [intros e -> | intros a db' ->]; reflexivity.
  - intros title description completed user_id db. rewrite create_task_run.
    split; [intros e -> | intros a db' ->]; reflexivity.
  - intros filter_by kwargs db. rewrite update_user_run.
    unfold update_and_fetch.
    destruct (update_users _ kwargs db) as [e | db1] eqn:Hup.
    + split; [intros e' [= <-]; reflexivity | discriminate].
    + rewrite get_user_run.
      rewrite (select_users_update_users _ _ _ _ Hup).
      split; [discriminate | intros a db' [= <- <-]; reflexivity].
Qed.

(** On the driver's store: a duplicate email, a task without owner and an
    UPDATE that gives every user the same email all raise and leave the store
    as it was (the UPDATE had rewritten the first row when the second one
    failed); an UPDATE of one user's age is committed. *)
Lemma mutations_are_atomic_witness :
  create_user "Johnny" "john.doe@example.com" 31 demo_db
    = (Raise IntegrityError, demo_db) ∧
  create_task "Buy milk" "" false None demo_db
    = (Raise IntegrityError, demo_db) ∧
  update_user None {[ "email" := VStr "all@example.com" ]} demo_db
    = (Raise IntegrityError, demo_db) ∧
  update_user (Some {[ "id" := VInt 1 ]}) {[ "age" := VInt 111 ]} demo_db
    = (Return
         (Some (User.Loaded
            (User.mk 1 (VStr "John Doe") (VStr "john.doe@example.com")
               (VInt 111))
            [Task.mk 1 (VStr "Buy groceries") (VStr "Buy groceries")
               (VInt 0) (VInt 1)])),
       Database
         [User.mk 1 (VStr "John Doe") (VStr "john.doe@example.com") (VInt 111);
          User.mk 2 (VStr "John Snow") (VStr "john2.doe@example.com") (VInt 33);
          User.mk 3 (VStr "John 3") (VStr "john3.doe@example.com") (VInt 11)]
         [Task.mk 1 (VStr "Buy groceries") (VStr "Buy groceries")
            (VInt 0) (VInt 1)]).
Proof.
  destruct mutations_are_atomic as (Hcreate_user & Hcreate_task & Hupdate).
  split_and!.
  - apply (Hcreate_user "Johnny" "john.doe@example.com" 31 demo_db).
    vm_compute. reflexivity.
  - apply (Hcreate_task "Buy milk" "" false None demo_db).
    vm_compute. reflexivity.
  - apply (Hupdate None {[ "email" := VStr "all@example.com" ]} demo_db).
    vm_compute. reflexivity.
  - apply (Hupdate (Some {[ "id" := VInt 1 ]}) {[ "age" := VInt 111 ]} demo_db).
    vm_compute. reflexivity.
Defined.

(** ** Reads *)

(** C9.  [get_user], [get_users], [get_task] and [get_users_tasks_count]
    return the store they were given, for every store and every filter
    (also one that makes the query raise). *)
Theorem reads_leave_the_store_unchanged (db : database) :
  (∀ filter_by, (get_user filter_by db).2 = db) ∧
  (∀ filter_by, (get_users filter_by db).2 = db) ∧
  (∀ filter_by, (get_task filter_by db).2 = db) ∧
  (get_users_tasks_count db).2 = db.
Proof.
  split_and!.
  - intros f. rewrite get_user_run. by destruct (select_users _ db).
  - intros f. rewrite get_users_run. by destruct (select_users _ db).
  - intros f. rewrite get_task_run. by destruct (select_tasks _ db).
  - reflexivity.
Qed.

(** C10.  A call that leaves the filter out ([None]) and a call that passes
    the empty dictionary have the same result and leave the same store. *)
Theorem omitted_filter_is_the_empty_filter (db : database) :
  get_user None db = get_user (Some ∅) db ∧
  get_users None db = get_users (Some ∅) db ∧
  get_task None db = get_task (Some ∅) db ∧
  (∀ kwargs, update_user None kwargs db = update_user (Some ∅) kwargs db).
Proof. split_and!; reflexivity. Qed.

(** ** UPDATE *)

Lemma set_column_inr table column old new v :
  set_column table column old new = inr v →
  match new with Some w => v = w | None => v = old end.
Proof.
  unfold set_column. destruct new as [w |]; [| by intros [= ->]].
  destruct (not_null_ok _ _ _); [by intros [= ->] | discriminate].
Qed.

Lemma set_rowid_inr old new i :
  set_rowid old new = inr i →
  match new with Some v => v = VInt i | None => i = old end.
Proof.
  unfold set_rowid. destruct new as [[] |]; try discriminate;
    by intros [= ->].
Qed.

Lemma assign_inr kw u u' :
  assign kw u = inr u' →
  match kw !! "id" with
  | Some v => v = VInt (User.id u')
  | None => User.id u' = User.id u
  end ∧
  match kw !! "name" with
  | Some v => User.name u' = v
  | None => User.name u' = User.name u
  end ∧
  match kw !! "email" with
  | Some v => User.email u' = v
  | None => User.email u' = User.email u
  end ∧
  match kw !! "age" with
  | Some v => User.age u' = v
  | None => User.age u' = User.age u
  end.
Proof.
  unfold assign. intros H.
  destruct (set_rowid _ _) as [| i] eqn:Hi; [discriminate |].
  destruct (set_column users_table "name" _ _) as [| n] eqn:Hn;
    [discriminate |].
  destruct (set_column users_table "email" _ _) as [| e] eqn:He;
    [discriminate |].
  destruct (set_column users_table "age" _ _) as [| a] eqn:Ha;
    [discriminate |].
  apply set_rowid_inr in Hi. apply set_column_inr in Hn, He, Ha.
  injection H as <-. simpl. done.
Qed.


Lemma update_rows_inr f kw before after res :
  update_rows f kw before after = inr res →
  ∃ res', res = before ++ res' ∧ Forall2 (updated_row f kw) after res'.
Proof.
  revert before. induction after as [| u after IH]; intros before H; simpl in H.
  - exists []. injection H as <-. by rewrite app_nil_r.
  - destruct (decide (user_matches f u)) as [Hm | Hm].
    + destruct (assign kw u) as [| u'] eqn:Ha; [discriminate |].
      destruct (bool_decide (is_Some (kw !! "id")) && _); [discriminate |].
      destruct (bool_decide (is_Some (kw !! "email")) && _); [discriminate |].
      apply IH in H as (res' & -> & HF).
      exists (u' :: res'). rewrite <- app_assoc. split; [done |].
      constructor; [| done]. unfold updated_row. by rewrite decide_True.
    + apply IH in H as (res' & -> & HF).
      exists (u :: res'). rewrite <- app_assoc. split; [done |].
      constructor; [| done]. unfold updated_row. by rewrite decide_False.
Qed.


(** An UPDATE that assigns neither rowid nor email meets no constraint on
    other rows; if it assigns no NULL either, it succeeds. *)

Lemma assign_free kw u :
  kw !! "id" = None → kw !! "email" = None →
  kw !! "name" ≠ Some VNone → kw !! "age" ≠ Some VNone →
  assign kw u = inr (reassigned kw u).
Proof.
  intros Hid He Hn Ha. unfold assign, reassigned, set_column, not_null_ok.
  rewrite Hid, He. simpl.
  destruct (kw !! "name") as [n |]; simpl.
  - rewrite bool_decide_eq_true_2 by congruence.
    destruct (kw !! "age") as [a |]; simpl; [| done].
    by rewrite bool_decide_eq_true_2 by congruence.
  - destruct (kw !! "age") as [a |]; simpl; [| done].
    by rewrite bool_decide_eq_true_2 by congruence.
Qed.

Lemma update_rows_free f kw before after :
  kw !! "id" = None → kw !! "email" = None →
  kw !! "name" ≠ Some VNone → kw !! "age" ≠ Some VNone →
  update_rows f kw before after =
  inr (before ++ ((λ u, if decide (user_matches f u)
                        then reassigned kw u else u) <$> after)).
Proof.
  intros Hid He Hn Ha. revert before.
  induction after as [| u after IH]; intros before; simpl.
  - by rewrite app_nil_r.
  - destruct (decide (user_matches f u)).
    + rewrite assign_free by done. rewrite Hid, He. simpl.
      rewrite IH. by rewrite <- app_assoc.
    + rewrite IH. by rewrite <- app_assoc.
Qed.

(** ** update_user *)







(** ** Reachable stores and the constraints of [users] *)

Lemma next_rowid_above ids i : i ∈ ids → i < next_rowid ids.
Proof.
  destruct ids as [| j ids]; [by intros ?%elem_of_nil |].
  unfold next_rowid. intros Hi.
  assert (i ≤ foldr Z.max j ids); [| lia].
  apply elem_of_cons in Hi as [-> | Hi].
  - induction ids as [| k ids IH]; simpl; lia.
  - induction ids as [| k ids IH]; [by apply elem_of_nil in Hi |].
    simpl. apply elem_of_cons in Hi as [-> | Hi]; [lia |].
    specialize (IH Hi). lia.
Qed.

Lemma next_rowid_fresh ids : next_rowid ids ∉ ids.
Proof. intros H%next_rowid_above. lia. Qed.

Lemma NoDup_snoc_fresh {B} (l : list B) x : NoDup l → x ∉ l → NoDup (l ++ [x]).
Proof.
  intros Hl Hx. apply NoDup_app. split_and!; [done | | apply NoDup_singleton].
  intros y Hy ->%list_elem_of_singleton. done.
Qed.

Lemma insert_user_consistent name email age db u db' :
  consistent db → insert_user name email age db = inr (u, db') →
  consistent db'.
Proof.
  intros [Hid Hem]. unfold insert_user.
  destruct (negb _); [discriminate |].
  destruct (bool_decide _) eqn:Hfresh; [discriminate |].
  intros [= <- <-]. apply bool_decide_eq_false in Hfresh.
  unfold consistent. simpl. rewrite !fmap_app. simpl.
  split; apply NoDup_snoc_fresh; auto using next_rowid_fresh.
Qed.

Lemma insert_task_users title description completed user_id db t db' :
  insert_task title description completed user_id db = inr (t, db') →
  users db' = users db.
Proof.
  unfold insert_task. destruct (negb _); [discriminate |]. by intros [= <- <-].
Qed.

Section replace_a_row.
Context {B : Type} `{EqDecision B} (proj : User.t → B).

(** Replacing a row by one whose column is unchanged, or is new to the
    rest of the table, keeps the column free of duplicates. *)
Lemma checked_row_keeps_NoDup before u u' after (assigned : bool) :
  NoDup (proj <$> before ++ u :: after) →
  (assigned = false → proj u' = proj u) →
  assigned && bool_decide (proj u' ∈ proj <$> before ++ after) = false →
  NoDup (proj <$> (before ++ [u']) ++ after).
Proof.
  intros Hnd Hsame Hcheck.
  rewrite <- app_assoc. simpl.
  rewrite fmap_app, fmap_cons in Hnd |- *.
  destruct assigned; simpl in Hcheck.
  - apply bool_decide_eq_false in Hcheck. rewrite fmap_app in Hcheck.
    apply NoDup_app in Hnd as (H1 & H12 & H2).
    apply NoDup_cons in H2 as [_ H2].
    apply NoDup_app. split_and!; [done | |].
    + intros y Hy [-> | Hy']%elem_of_cons.
      * apply Hcheck, elem_of_app. by left.
      * apply (H12 y Hy). by right.
    + apply NoDup_cons. split; [| done].
      intros Hin. apply Hcheck, elem_of_app. by right.
  - by rewrite Hsame.
Qed.
End replace_a_row.

Lemma update_rows_consistent f kw before after res :
  NoDup (User.id <$> before ++ after) →
  NoDup (User.email <$> before ++ after) →
  update_rows f kw before after = inr res →
  NoDup (User.id <$> res) ∧ NoDup (User.email <$> res).
Proof.
  revert before. induction after as [| u after IH];
    intros before Hid Hem H; simpl in H.
  - injection H as <-. by rewrite app_nil_r in Hid, Hem.
  - destruct (decide (user_matches f u)).
    + destruct (assign kw u) as [| u'] eqn:Ha; [discriminate |].
      destruct (bool_decide (is_Some (kw !! "id")) && _) eqn:Hcid;
        [discriminate |].
      destruct (bool_decide (is_Some (kw !! "email")) && _) eqn:Hcem;
        [discriminate |].
      apply assign_inr in Ha as (Haid & _ & Haem & _).
      apply IH in H; [done | |].
      * apply (checked_row_keeps_NoDup User.id before u u' after
                 (bool_decide (is_Some (kw !! "id"))) Hid); [| exact Hcid].
        intros Hno%bool_decide_eq_false.
        destruct (kw !! "id"); [by destruct Hno | done].
      * apply (checked_row_keeps_NoDup User.email before u u' after
                 (bool_decide (is_Some (kw !! "email"))) Hem); [| exact Hcem].
        intros Hno%bool_decide_eq_false.
        destruct (kw !! "email"); [by destruct Hno | done].
    + apply IH in H; [done | |]; by rewrite <- app_assoc.
Qed.

Lemma update_users_consistent f kw db db' :
  consistent db → update_users f kw db = inr db' → consistent db'.
Proof.
  intros [Hid Hem]. unfold update_users.
  repeat (case_decide; try discriminate).
  destruct (update_rows _ _ _ _) as [| us] eqn:Hrows; [discriminate |].
  intros [= <-]. by apply update_rows_consistent in Hrows.
Qed.

Lemma step_consistent db db' : step db db' → consistent db → consistent db'.
Proof.
  intros Hstep Hc. destruct Hstep; unfold store_after.
  - rewrite create_user_run.
    destruct (insert_user _ _ _ db) as [| [u db']] eqn:Hi; [done |].
    by apply insert_user_consistent in Hi.
  - rewrite get_user_run. by destruct (select_users _ db).
  - rewrite get_users_run. by destruct (select_users _ db).
  - rewrite update_user_run.
    destruct (update_users _ _ db) as [| db'] eqn:Hu; [done |].
    by apply update_users_consistent in Hu.
  - done.
  - rewrite create_task_run.
    destruct (insert_task _ _ _ _ db) as [| [t db']] eqn:Hi; [done |].
    apply insert_task_users in Hi. unfold consistent. simpl. by rewrite Hi.
  - rewrite get_task_run. by destruct (select_tasks _ db).
Qed.

Lemma reachable_consistent db : reachable db → consistent db.
Proof.
  unfold reachable. revert db. apply rtc_ind_r.
  - split; apply NoDup_nil_2.
  - intros db1 db2 _ Hstep Hc. by apply (step_consistent db1).
Qed.

Lemma demo_db_reachable : reachable demo_db.
Proof.
  unfold reachable, demo_db.
  eapply rtc_r; [| apply step_create_task].
  eapply rtc_r; [| apply step_create_user].
  eapply rtc_r; [| apply step_create_user].
  eapply rtc_r; [| apply step_create_user].
  apply rtc_refl.
Qed.

(** C3.  In every reachable store no two users have the same email.  In any
    store that holds a user with email [E], [create_user] with [E] and an
    age of 64 bits raises [IntegrityError] and returns the store as it was,
    so [get_users()] answers as before. *)
Theorem email_is_unique :
  (∀ db, reachable db → NoDup (User.email <$> users db)) ∧
  (∀ name E age db,
     int64 age →
     VStr E ∈ User.email <$> users db →
     create_user name E age db = (Raise IntegrityError, db) ∧
     get_users None (store_after (create_user name E age db)) = get_users None db).
Proof.
  split.
  - intros db Hr. by apply reachable_consistent.
  - intros name E age db _ HE.
    assert (Hc : create_user name E age db = (Raise IntegrityError, db))
      by (by rewrite create_user_run, insert_user_taken).
    split; [exact Hc |]. by rewrite Hc.
Qed.

Lemma email_is_unique_witness :
  NoDup (User.email <$> users demo_db) ∧
  create_user "Johnny" "john.doe@example.com" 31 demo_db
    = (Raise IntegrityError, demo_db) ∧
  get_users None
    (store_after (create_user "Johnny" "john.doe@example.com" 31 demo_db))
    = get_users None demo_db.
Proof.
  destruct email_is_unique as [Hinv Hdup].
  split; [exact (Hinv demo_db demo_db_reachable) |].
  apply (Hdup "Johnny" "john.doe@example.com" 31 demo_db).
  - by_evaluation.
  - by_evaluation.
Defined.

(** ** get_users_tasks_count *)

Section grouping.
Context (ts : list Task.t).

Lemma joined_rows_user u : Forall (λ r, r.1 = u) (joined_rows u ts).
Proof.
  unfold joined_rows. destruct (filter _ ts) as [| t ts'].
  - by repeat constructor.
  - apply Forall_fmap, Forall_true. done.
Qed.

Lemma joined_rows_head u : ∃ o rest, joined_rows u ts = (u, o) :: rest.
Proof.
  unfold joined_rows. destruct (filter _ ts) as [| t ts']; simpl; eauto.
Qed.

Lemma joined_rows_count u :
  count_task_id (joined_rows u ts)
  = Z.of_nat (length (filter (owned_by u) ts)).
Proof.
  unfold joined_rows, count_task_id.
  destruct (filter (owned_by u) ts) as [| t ts']; [done |].
  f_equal. generalize (t :: ts'). intros l.
  induction l as [| t' l IH]; [done |].
  rewrite fmap_cons, filter_cons_True by (simpl; eauto). simpl.
  by rewrite IH.
Qed.

Lemma outerjoin_user us r : r ∈ outerjoin us ts → r.1 ∈ us.
Proof.
  unfold outerjoin. intros (u & Hr & Hu)%list_elem_of_bind.
  pose proof (joined_rows_user u) as HF. rewrite Forall_forall in HF.
  by rewrite (HF r Hr).
Qed.

(** Rows of one key in front of rows of other keys: the key opens the
    list of distinct keys. *)
Lemma remove_dups_prefix (k : Z) (l r : list Z) :
  l ≠ [] → Forall (λ x, x = k) l → k ∉ r →
  remove_dups (l ++ r) = k :: remove_dups r.
Proof.
  intros Hne HF Hk. induction HF as [| x l -> HF IH]; [done |].
  simpl. destruct l as [| y l].
  - simpl. by destruct (decide_rel _ k r).
  - destruct (decide_rel _ k ((y :: l) ++ r)) as [| Hnot].
    + by apply IH.
    + destruct Hnot. apply Forall_cons in HF as [-> _]. by left.
Qed.

Lemma group_by_user_id_cons u us :
  User.id u ∉ User.id <$> us →
  group_by_user_id (outerjoin (u :: us) ts)
  = joined_rows u ts :: group_by_user_id (outerjoin us ts).
Proof.
  intros Hfresh. unfold outerjoin at 1. rewrite bind_cons.
  fold (outerjoin us ts).
  pose proof (joined_rows_user u) as HB.
  destruct (joined_rows_head u) as (o & rest & Hhead).
  assert (Hother : ∀ r, r ∈ outerjoin us ts → User.id r.1 ≠ User.id u).
  { intros r Hr Heq. apply Hfresh, list_elem_of_fmap.
    exists r.1. split; [done |]. by apply outerjoin_user. }
  unfold group_by_user_id. rewrite fmap_app.
  rewrite (remove_dups_prefix (User.id u)).
  - rewrite fmap_cons. f_equal.
    + rewrite filter_app.
      assert (filter (λ r, User.id r.1 = User.id u) (outerjoin us ts) = [])
        as ->.
      { apply head_None, head_filter_None. intros r Hr. by apply Hother. }
      rewrite app_nil_r. clear Hhead.
      induction HB as [| r l Hr HB IH]; [done |].
      rewrite filter_cons_True by (by rewrite Hr). by rewrite IH.
    + apply list_fmap_ext. intros i k Hk.
      apply list_elem_of_lookup_2 in Hk. rewrite elem_of_remove_dups in Hk.
      apply list_elem_of_fmap in Hk as (r & -> & Hr).
      rewrite filter_app.
      assert (filter (λ r0, User.id r0.1 = User.id r.1) (joined_rows u ts)
              = []) as ->; [| done].
      apply head_None, head_filter_None. intros r' Hr'.
      rewrite Forall_forall in HB. rewrite (HB r' Hr').
      intros Heq. by apply (Hother r Hr).
  - rewrite Hhead. done.
  - apply Forall_fmap. eapply Forall_impl; [exact HB |].
    intros r Hr. simpl. by rewrite Hr.
  - intros (r & Heq & Hr)%list_elem_of_fmap. by apply (Hother r Hr).
Qed.

(** With distinct rowids, the grouped join has one row per user: its
    rowid, its name, the number of tasks that reference it. *)
Lemma grouped_counts us :
  NoDup (User.id <$> us) →
  (g ← group_by_user_id (outerjoin us ts); result_row g)
  = (λ u, (User.id u, User.name u,
           Z.of_nat (length (filter (owned_by u) ts)))) <$> us.
Proof.
  induction us as [| u us IH]; [done |].
  rewrite fmap_cons. intros [Hfresh Hnd]%NoDup_cons.
  rewrite group_by_user_id_cons, bind_cons, IH by done.
  destruct (joined_rows_head u) as (o & rest & Hhead).
  unfold result_row at 1. rewrite Hhead, <- Hhead.
  by rewrite joined_rows_count.
Qed.
End grouping.

Lemma select_users_tasks_count_rows db :
  NoDup (User.id <$> users db) →
  select_users_tasks_count db = count_row db <$> users_by_rowid (users db).
Proof.
  intros Hnd. unfold select_users_tasks_count. rewrite grouped_counts.
  - apply list_fmap_ext. intros _ u _. unfold count_row, tasks_owned.
    by rewrite tasks_by_rowid_perm.
  - by rewrite users_by_rowid_perm.
Qed.





(** * Further properties of the two repositories *)

(** ** get_users and get_task *)

#[global] Instance task_rowid_le_refl : Reflexive task_rowid_le.
Proof. unfold task_rowid_le. intros t. lia. Qed.

Lemma tasks_by_rowid_sorted l :
  StronglySorted task_rowid_le (tasks_by_rowid l).
Proof. apply StronglySorted_merge_sort; apply _. Qed.

Lemma StronglySorted_filter {A} (R : relation A) (P : A → Prop)
  `{!∀ x, Decision (P x)} l :
  StronglySorted R l → StronglySorted R (filter P l).
Proof.
  induction 1 as [| x l Hs IH Hall]; [constructor |].
  rewrite filter_cons. destruct (decide (P x)); [| done].
  constructor; [done |].
  rewrite Forall_forall in Hall |- *.
  intros y [_ Hy]%list_elem_of_filter. by apply Hall.
Qed.

Lemma filter_all {A} (P : A → Prop) `{!∀ x, Decision (P x)} (l : list A) :
  (∀ x, x ∈ l → P x) → filter P l = l.
Proof.
  induction l as [| x l IH]; intros Hall; [done |].
  rewrite filter_cons_True by (apply Hall; left).
  rewrite IH; [done |]. intros y Hy. apply Hall. by right.
Qed.

Lemma columns_of_load_tasks db (l : list User.t) :
  User.columns_of <$> (load_tasks db <$> l) = l.
Proof.
  rewrite <- list_fmap_compose. rewrite <- (list_fmap_id l) at 2.
  by apply list_fmap_ext.
Qed.

Lemma get_users_known f db :
  known_keys User.columns f →
  get_users (Some f) db =
  (Return (load_tasks db <$>
             filter (user_matches f) (users_by_rowid (users db))), db).
Proof.
  intros Hk. rewrite get_users_run. simpl. by rewrite select_users_known.
Qed.

(** X1.  Whatever the filter, [get_user] answers with the first element of
    what [get_users] answers with the same filter ([None] when that list is
    empty), and raises what [get_users] raises. *)
Theorem get_user_is_first_of_get_users
  (filter_by : option (gmap string value)) (db : database) :
  get_user filter_by db =
  (match (get_users filter_by db).1 with
   | Return l => Return (head l)
   | Raise e => Raise e
   end, db).
Proof.
  rewrite get_user_run, get_users_run.
  by destruct (select_users _ db).
Qed.

(** X2.  For a filter over the columns of [users] with values of the types
    of these columns, [get_users] does not raise and leaves the store as it
    was; it returns the users that agree with every entry of the filter,
    each once for each time it is stored, by ascending rowid, each with
    exactly the tasks that reference it.  With the empty filter it returns
    every stored user. *)
Theorem get_users_returns_all_matches (filter_by : gmap string value)
  (db : database) :
  typed users_types filter_by →
  ∃ l, get_users (Some filter_by) db = (Return l, db) ∧
       User.columns_of <$> l ≡ₚ filter (user_matches filter_by) (users db) ∧
       StronglySorted user_rowid_le (User.columns_of <$> l) ∧
       (∀ found, found ∈ l →
          ∀ t, t ∈ User.tasks found ↔
               t ∈ tasks db ∧
               Task.user_id t = VInt (User.id (User.columns_of found))) ∧
       (filter_by = ∅ → User.columns_of <$> l ≡ₚ users db).
Proof.
  intros Hk%typed_known_users. rewrite (get_users_known _ _ Hk).
  eexists. split; [reflexivity |].
  rewrite columns_of_load_tasks. split_and!.
  - by rewrite users_by_rowid_perm.
  - apply StronglySorted_filter, users_by_rowid_sorted.
  - intros found (u & -> & _)%list_elem_of_fmap t. apply elem_of_load_tasks.
  - intros ->. rewrite filter_all by (intros; apply user_matches_empty).
    apply users_by_rowid_perm.
Qed.

Lemma get_users_returns_all_matches_witness :
  typed users_types {[ "age" := VInt 33 ]} ∧
  ∃ l, get_users (Some {[ "age" := VInt 33 ]}) demo_db = (Return l, demo_db) ∧
       User.columns_of <$> l
         ≡ₚ filter (user_matches {[ "age" := VInt 33 ]}) (users demo_db) ∧
       StronglySorted user_rowid_le (User.columns_of <$> l) ∧
       (∀ found, found ∈ l →
          ∀ t, t ∈ User.tasks found ↔
               t ∈ tasks demo_db ∧
               Task.user_id t = VInt (User.id (User.columns_of found))) ∧
       (({[ "age" := VInt 33 ]} : gmap string value) = ∅ →
        User.columns_of <$> l ≡ₚ users demo_db).
Proof.
  assert (H : typed users_types {[ "age" := VInt 33 ]})
    by by_evaluation.
  split; [exact H |].
  exact (get_users_returns_all_matches {[ "age" := VInt 33 ]} demo_db H).
Defined.

(** X3.  For a filter over the columns of [tasks] with values of the types
    of these columns, [get_task] does not raise and leaves the store as it
    was; it returns a stored task that agrees with every entry of the filter
    and has the least rowid among those that do, or [None] when no stored
    task agrees with the filter. *)
Theorem get_task_returns_first_match (filter_by : gmap string value)
  (db : database) :
  typed tasks_types filter_by →
  ∃ r, get_task (Some filter_by) db = (Return r, db) ∧
       match r with
       | Some t =>
           t ∈ tasks db ∧
           (∀ k v, filter_by !! k = Some v → Task.get k t = Some v) ∧
           (∀ t', t' ∈ tasks db → task_matches filter_by t' →
                  Task.id t ≤ Task.id t')
       | None => ∀ t, t ∈ tasks db → ¬ task_matches filter_by t
       end.
Proof.
  intros Hk%typed_known_tasks. rewrite get_task_run. simpl. unfold select_tasks.
  rewrite decide_True by done.
  eexists. split; [reflexivity |].
  destruct (head _) as [t |] eqn:Hh.
  - apply (head_filter_sorted task_rowid_le) in Hh
      as (Hm & Hin & Hle); [| apply tasks_by_rowid_sorted].
    split_and!.
    + by rewrite elem_of_tasks_by_rowid in Hin.
    + exact Hm.
    + intros t' Ht' Hm'. apply Hle; [| done].
      by rewrite elem_of_tasks_by_rowid.
  - intros t Ht Hm. rewrite head_filter_None in Hh.
    apply (Hh t); [| done]. by rewrite elem_of_tasks_by_rowid.
Qed.

Lemma get_task_returns_first_match_witness :
  typed tasks_types {[ "id" := VInt 1 ]} ∧
  ∃ r, get_task (Some {[ "id" := VInt 1 ]}) demo_db = (Return r, demo_db) ∧
       match r with
       | Some t =>
           t ∈ tasks demo_db ∧
           (∀ k v, ({[ "id" := VInt 1 ]} : gmap string value) !! k = Some v →
                   Task.get k t = Some v) ∧
           (∀ t', t' ∈ tasks demo_db → task_matches {[ "id" := VInt 1 ]} t' →
                  Task.id t ≤ Task.id t')
       | None => ∀ t, t ∈ tasks demo_db → ¬ task_matches {[ "id" := VInt 1 ]} t
       end.
Proof.
  assert (H : typed tasks_types {[ "id" := VInt 1 ]}) by by_evaluation.
  split; [exact H |].
  exact (get_task_returns_first_match {[ "id" := VInt 1 ]} demo_db H).
Defined.

(** ** What every reachable store looks like *)

Lemma set_column_not_null column old new v :
  column ∈ ["name"; "email"; "age"] →
  set_column users_table column old new = inr v →
  old ≠ VNone → v ≠ VNone.
Proof.
  intros Hc. unfold set_column. destruct new as [w |]; [| by intros [= ->]].
  assert (Hcheck : not_null_ok users_table column w = bool_decide (w ≠ VNone)).
  { repeat (apply elem_of_cons in Hc as [-> | Hc]); try reflexivity.
    by apply elem_of_nil in Hc. }
  rewrite Hcheck. case_bool_decide; [by intros [= ->] | discriminate].
Qed.

Lemma assign_not_null kw u u' :
  assign kw u = inr u' →
  User.name u ≠ VNone ∧ User.email u ≠ VNone ∧ User.age u ≠ VNone →
  User.name u' ≠ VNone ∧ User.email u' ≠ VNone ∧ User.age u' ≠ VNone.
Proof.
  unfold assign. intros H (Hn & He & Ha).
  destruct (set_rowid _ _) as [| i]; [discriminate |].
  destruct (set_column users_table "name" _ _) as [| n] eqn:Hsn;
    [discriminate |].
  destruct (set_column users_table "email" _ _) as [| e] eqn:Hse;
    [discriminate |].
  destruct (set_column users_table "age" _ _) as [| a] eqn:Hsa;
    [discriminate |].
  injection H as <-. simpl.
  split_and!; eapply set_column_not_null; try eassumption;
    repeat constructor.
Qed.

Lemma update_users_inr f kw db db' :
  update_users f kw db = inr db' →
  Forall2 (updated_row f kw) (users db) (users db') ∧ tasks db' = tasks db.
Proof.
  unfold update_users.
  repeat (case_decide; try discriminate).
  destruct (update_rows _ _ _ _) as [| us] eqn:Hrows; [discriminate |].
  intros [= <-]. apply update_rows_inr in Hrows as (res' & -> & HF).
  by split.
Qed.

Lemma insert_user_inr name email age db u db' :
  insert_user name email age db = inr (u, db') →
  u = User.mk (next_rowid (User.id <$> users db)) name email age ∧
  db' = Database (users db ++ [u]) (tasks db) ∧
  email ∉ User.email <$> users db.
Proof.
  unfold insert_user. destruct (negb _); [discriminate |].
  case_bool_decide; [discriminate |]. by intros [= <- <-].
Qed.

Lemma insert_task_inr title description completed user_id db t db' :
  insert_task (VStr title) (VStr description) (VInt (Z.b2z completed))
    (from_option VInt VNone user_id) db = inr (t, db') →
  ∃ owner, user_id = Some owner ∧
    t = Task.mk (next_rowid (Task.id <$> tasks db)) (VStr title)
          (VStr description) (VInt (Z.b2z completed)) (VInt owner) ∧
    db' = Database (users db) (tasks db ++ [t]).
Proof.
  destruct user_id as [owner |]; [| discriminate].
  unfold from_option. rewrite insert_task_owned.
  intros [= <- <-]. by exists owner.
Qed.

Lemma step_well_formed db db' :
  consistent db → step db db' → well_formed db → well_formed db'.
Proof.
  intros Hc Hstep (Huid & Htid & Hu & Ht).
  destruct Hstep; unfold store_after.
  - rewrite create_user_run.
    destruct (insert_user _ _ _ db) as [| [u db']] eqn:Hi; [done |].
    apply insert_user_inr in Hi as (-> & -> & _).
    split_and!; simpl; [| done | | done].
    + rewrite fmap_app. apply NoDup_snoc_fresh; [done |].
      apply next_rowid_fresh.
    + intros u [Hin | ->%list_elem_of_singleton]%elem_of_app; [auto |].
      done.
  - rewrite get_user_run. by destruct (select_users _ db).
  - rewrite get_users_run. by destruct (select_users _ db).
  - rewrite update_user_run.
    destruct (update_users _ _ db) as [| db'] eqn:Hup; [done |].
    pose proof (update_users_consistent _ _ _ _ Hc Hup) as [Huid' _].
    apply update_users_inr in Hup as [HF Htasks]. cbn [snd].
    split_and!; [done | by rewrite Htasks | | by rewrite Htasks].
    intros u' [i Hi]%list_elem_of_lookup.
    destruct (Forall2_lookup_r _ _ _ _ _ HF Hi) as (u & Hui & Hrow).
    apply list_elem_of_lookup_2 in Hui.
    unfold updated_row in Hrow. destruct (decide (user_matches _ u)).
    + by apply (assign_not_null _ _ _ Hrow), Hu.
    + subst u'. by apply Hu.
  - done.
  - rewrite create_task_run.
    destruct (insert_task _ _ _ _ db) as [| [t db']] eqn:Hi; [done |].
    apply insert_task_inr in Hi as (owner & -> & -> & ->).
    split_and!; simpl; [done | | done |].
    + rewrite fmap_app. apply NoDup_snoc_fresh; [done |].
      apply next_rowid_fresh.
    + intros t [Hin | ->%list_elem_of_singleton]%elem_of_app; [auto |].
      simpl. eauto.
  - rewrite get_task_run. by destruct (select_tasks _ db).
Qed.

(** X5.  In every store the program can reach, the rowids of [users] are
    distinct and so are those of [tasks], no user has [None] as name, email
    or age, and every task has an integer [user_id] (none is unowned). *)
Theorem reachable_stores_are_well_formed (db : database) :
  reachable db → well_formed db.
Proof.
  unfold reachable. revert db. apply rtc_ind_r.
  - split_and!; try apply NoDup_nil_2; by intros ? ?%elem_of_nil.
  - intros db1 db2 Hreach Hstep Hwf.
    apply (step_well_formed db1); [| done | done].
    by apply reachable_consistent.
Qed.

Lemma reachable_stores_are_well_formed_witness : well_formed demo_db.
Proof.
  exact (reachable_stores_are_well_formed demo_db demo_db_reachable).
Defined.




(** ** Creating and finding again *)

Lemma Task_get_id t : Task.get "id" t = Some (VInt (Task.id t)).
Proof. reflexivity. Qed.

Lemma task_matches_singleton k v t :
  task_matches {[ k := v ]} t ↔ Task.get k t = Some v.
Proof. unfold task_matches. by rewrite map_Forall_singleton. Qed.

(** X7.  Let [user_id] be an integer of 64 bits and let the largest rowid
    of [tasks] leave room for the next one.  [create_task] then succeeds in
    every store, whether or not a user has that rowid: it appends one task
    with the given fields and a rowid above every stored one, changes
    nothing else, and [get_task] on the new rowid returns that task. *)
Theorem create_task_stores_one_task (title description : string)
  (completed : bool) (owner : Z) (db : database) :
  int64 owner →
  int64 (next_rowid (Task.id <$> tasks db)) →
  let t := Task.mk (next_rowid (Task.id <$> tasks db)) (VStr title)
             (VStr description) (VInt (Z.b2z completed)) (VInt owner) in
  let db' := Database (users db) (tasks db ++ [t]) in
  create_task title description completed (Some owner) db = (Return t, db') ∧
  (∀ t', t' ∈ tasks db → Task.id t' < Task.id t) ∧
  get_task (Some {[ "id" := VInt (Task.id t) ]}) db' = (Return (Some t), db').
Proof.
  intros _ _ t db'. split_and!.
  - rewrite create_task_run. unfold from_option.
    by rewrite insert_task_owned.
  - intros t' Ht'. apply (next_rowid_above (Task.id <$> tasks db)).
    apply list_elem_of_fmap. exists t'. split; [reflexivity | exact Ht'].
  - rewrite get_task_run. simpl. unfold select_tasks.
    rewrite decide_True by (apply known_keys_singleton; repeat constructor).
    rewrite (filter_single _ (tasks db) _ t); [done | ..].
    + apply tasks_by_rowid_perm.
    + intros t' Ht' Hm. apply task_matches_singleton in Hm.
      rewrite Task_get_id in Hm. injection Hm as Hid.
      assert (Task.id t' < next_rowid (Task.id <$> tasks db));
        [| simpl in Hid; lia].
      apply (next_rowid_above (Task.id <$> tasks db)).
      apply list_elem_of_fmap. exists t'. split; [reflexivity | exact Ht'].
    + apply task_matches_singleton. reflexivity.
Qed.

(** A task for a user that does not exist, on the store of the driver. *)
Lemma create_task_stores_one_task_witness :
  int64 9 ∧
  int64 (next_rowid (Task.id <$> tasks demo_db)) ∧
  create_task "Pay rent" "Before Friday" true (Some 9) demo_db
    = (Return (Task.mk 2 (VStr "Pay rent") (VStr "Before Friday") (VInt 1)
                 (VInt 9)),
       Database (users demo_db)
         (tasks demo_db
            ++ [Task.mk 2 (VStr "Pay rent") (VStr "Before Friday") (VInt 1)
                  (VInt 9)])).
Proof.
  assert (H1 : int64 9) by by_evaluation.
  assert (H2 : int64 (next_rowid (Task.id <$> tasks demo_db)))
    by by_evaluation.
  split_and!; [exact H1 | exact H2 |].
  exact (proj1 (create_task_stores_one_task "Pay rent" "Before Friday" true 9
                  demo_db H1 H2)).
Defined.

(** X8.  Let [age] be an integer of 64 bits and let the largest rowid of
    [users] leave room for the next one.  [create_user] with an email that
    no stored user has then succeeds: it appends one user with the given
    fields and a rowid above every stored one, changes nothing else, and
    [get_user] on the new rowid returns that user with the tasks whose
    [user_id] is that rowid. *)
Theorem create_user_stores_one_user (name email : string) (age : Z)
  (db : database) :
  int64 age →
  int64 (next_rowid (User.id <$> users db)) →
  VStr email ∉ User.email <$> users db →
  let u := User.mk (next_rowid (User.id <$> users db))
             (VStr name) (VStr email) (VInt age) in
  let db' := Database (users db ++ [u]) (tasks db) in
  create_user name email age db = (Return u, db') ∧
  (∀ u', u' ∈ users db → User.id u' < User.id u) ∧
  get_user (Some {[ "id" := VInt (User.id u) ]}) db'
    = (Return (Some (load_tasks db' u)), db').
Proof.
  intros _ _ Hfresh u db'. split_and!.
  - by rewrite create_user_run, insert_user_fresh.
  - intros u' Hu'. apply (next_rowid_above (User.id <$> users db)).
    apply list_elem_of_fmap. exists u'. split; [reflexivity | exact Hu'].
  - rewrite get_user_known
      by (apply known_keys_singleton; repeat constructor).
    rewrite (filter_single _ (users db) _ u); [done | ..].
    + apply users_by_rowid_perm.
    + intros u' Hu' Hm. apply user_matches_singleton in Hm.
      rewrite User_get_id in Hm. injection Hm as Hid.
      assert (User.id u' < next_rowid (User.id <$> users db));
        [| simpl in Hid; lia].
      apply (next_rowid_above (User.id <$> users db)).
      apply list_elem_of_fmap. exists u'. split; [reflexivity | exact Hu'].
    + apply user_matches_singleton. reflexivity.
Qed.

Lemma create_user_stores_one_user_witness :
  int64 41 ∧
  int64 (next_rowid (User.id <$> users demo_db)) ∧
  (VStr "ann@example.com" ∉ User.email <$> users demo_db) ∧
  create_user "Ann" "ann@example.com" 41 demo_db
    = (Return (User.mk 4 (VStr "Ann") (VStr "ann@example.com") (VInt 41)),
       Database
         (users demo_db
            ++ [User.mk 4 (VStr "Ann") (VStr "ann@example.com") (VInt 41)])
         (tasks demo_db)).
Proof.
  assert (H1 : int64 41) by by_evaluation.
  assert (H2 : int64 (next_rowid (User.id <$> users demo_db)))
    by by_evaluation.
  assert (H : VStr "ann@example.com" ∉ User.email <$> users demo_db)
    by by_evaluation.
  split_and!; [exact H1 | exact H2 | exact H |].
  exact (proj1 (create_user_stores_one_user "Ann" "ann@example.com" 41
                  demo_db H1 H2 H)).
Defined.

(** ** Counting tasks *)

Lemma total_cons row rows : total (row :: rows) = row.2 + total rows.
Proof. reflexivity. Qed.

Lemma tasks_owned_by_rowid db u :
  Z.of_nat (length (filter (owned_by u) (tasks_by_rowid (tasks db))))
  = tasks_owned db u.
Proof. unfold tasks_owned. by rewrite tasks_by_rowid_perm. Qed.

Lemma get_users_all db :
  get_users None db = (Return (load_tasks db <$> users_by_rowid (users db)), db).
Proof.
  rewrite get_users_run. simpl.
  rewrite select_users_known by apply known_keys_empty.
  by rewrite filter_all by (intros; apply user_matches_empty).
Qed.

(** X9.  When the stored users have distinct rowids, the rows of
    [get_users_tasks_count] are the users [get_users()] returns, in the same
    order, each with its rowid, its name and the length of its loaded
    [tasks]. *)
Theorem counts_agree_with_loaded_tasks (db : database) :
  NoDup (User.id <$> users db) →
  ∃ l, get_users None db = (Return l, db) ∧
       get_users_tasks_count db = (Return (row_of_loaded <$> l), db).
Proof.
  intros Hnd. exists (load_tasks db <$> users_by_rowid (users db)).
  split; [apply get_users_all |].
  rewrite get_users_tasks_count_run, select_users_tasks_count_rows by done.
  do 2 f_equal. rewrite <- list_fmap_compose.
  apply list_fmap_ext. intros _ u _. unfold row_of_loaded, count_row. simpl.
  by rewrite tasks_owned_by_rowid.
Qed.

Lemma counts_agree_with_loaded_tasks_witness :
  NoDup (User.id <$> users demo_db) ∧
  ∃ l, get_users None demo_db = (Return l, demo_db) ∧
       get_users_tasks_count demo_db = (Return (row_of_loaded <$> l), demo_db).
Proof.
  assert (H : NoDup (User.id <$> users demo_db)) by by_evaluation.
  split; [exact H |].
  exact (counts_agree_with_loaded_tasks demo_db H).
Defined.

(** X10.  When the stored users have distinct rowids, storing a task with
    [user_id=owner], an integer of 64 bits, in a table whose largest rowid
    leaves room for the next one raises by one the count that
    [get_users_tasks_count] reports for the user with rowid [owner] and
    changes no other row of its result (none at all when no user has that
    rowid). *)
Theorem create_task_counts_once (title description : string)
  (completed : bool) (owner : Z) (db : database) :
  int64 owner →
  int64 (next_rowid (Task.id <$> tasks db)) →
  NoDup (User.id <$> users db) →
  ∃ rows t db',
    get_users_tasks_count db = (Return rows, db) ∧
    create_task title description completed (Some owner) db
      = (Return t, db') ∧
    get_users_tasks_count db' = (Return (one_more_for owner <$> rows), db').
Proof.
  intros _ _ Hnd.
  set (t := Task.mk (next_rowid (Task.id <$> tasks db)) (VStr title)
              (VStr description) (VInt (Z.b2z completed)) (VInt owner)).
  set (db' := Database (users db) (tasks db ++ [t])).
  exists (count_row db <$> users_by_rowid (users db)), t, db'.
  split_and!.
  - by rewrite get_users_tasks_count_run, select_users_tasks_count_rows.
  - rewrite create_task_run. unfold from_option.
    by rewrite insert_task_owned.
  - rewrite get_users_tasks_count_run, select_users_tasks_count_rows by done.
    do 2 f_equal. rewrite <- list_fmap_compose.
    apply list_fmap_ext. intros _ u _.
    unfold one_more_for, count_row, tasks_owned. simpl. f_equal.
    rewrite filter_app, length_app, Nat2Z.inj_add.
    rewrite filter_cons, filter_nil. unfold owned_by at 2. simpl.
    destruct (decide (VInt owner = VInt (User.id u))) as [Heq | Hne].
    + injection Heq as Heq. by rewrite decide_True.
    + rewrite decide_False by congruence. simpl. lia.
Qed.

Lemma create_task_counts_once_witness :
  int64 2 ∧
  int64 (next_rowid (Task.id <$> tasks demo_db)) ∧
  NoDup (User.id <$> users demo_db) ∧
  ∃ rows t db',
    get_users_tasks_count demo_db = (Return rows, demo_db) ∧
    create_task "Call home" "" true (Some 2) demo_db = (Return t, db') ∧
    get_users_tasks_count db' = (Return (one_more_for 2 <$> rows), db').
Proof.
  assert (H1 : int64 2) by by_evaluation.
  assert (H2 : int64 (next_rowid (Task.id <$> tasks demo_db)))
    by by_evaluation.
  assert (H : NoDup (User.id <$> users demo_db)) by by_evaluation.
  split_and!; [exact H1 | exact H2 | exact H |].
  exact (create_task_counts_once "Call home" "" true 2 demo_db H1 H2 H).
Defined.

Section counting.
Context {A : Type} (P Q R : A → Prop).
Context `{!∀ x, Decision (P x), !∀ x, Decision (Q x), !∀ x, Decision (R x)}.

(** Rows that meet one of two conditions, never both, are counted by
    counting each condition apart. *)
Lemma length_filter_either l :
  (∀ x, x ∈ l → (R x ↔ P x ∨ Q x)) →
  (∀ x, x ∈ l → P x → Q x → False) →
  length (filter R l) = (length (filter P l) + length (filter Q l))%nat.
Proof.
  induction l as [| x l IH]; intros Hiff Hdis; [done |].
  assert (Hx : x ∈ x :: l) by left.
  assert (IH' : length (filter R l)
                = (length (filter P l) + length (filter Q l))%nat).
  { apply IH; [intros y Hy; apply Hiff | intros y Hy; apply Hdis]; by right. }
  rewrite !filter_cons.
  destruct (decide (P x)) as [HP | HP], (decide (Q x)) as [HQ | HQ],
    (decide (R x)) as [HR | HR]; simpl; rewrite IH'; try lia.
  - destruct (Hdis x Hx HP HQ).
  - destruct (Hdis x Hx HP HQ).
  - destruct HR. apply Hiff; auto.
  - destruct HR. apply Hiff; auto.
  - apply Hiff in HR as [? | ?]; done.
Qed.
End counting.

Lemma total_counts us ts :
  NoDup (User.id <$> us) →
  total ((λ u, (User.id u, User.name u,
                Z.of_nat (length (filter (owned_by u) ts)))) <$> us)
  = Z.of_nat (length (filter (λ t, Exists (λ u, owned_by u t) us) ts)).
Proof.
  induction us as [| u us IH]; intros Hnd.
  - assert (filter (λ t, Exists (λ u, owned_by u t) []) ts = []) as ->;
      [| done].
    apply head_None, head_filter_None. intros t _ H. by apply Exists_nil in H.
  - rewrite fmap_cons in Hnd. apply NoDup_cons in Hnd as [Hfresh Hnd].
    rewrite fmap_cons, total_cons, IH by done. simpl.
    rewrite <- Nat2Z.inj_add. f_equal. symmetry.
    apply length_filter_either.
    + intros t _. apply Exists_cons.
    + intros t _ Hown (u' & Hu' & Hown')%Exists_exists.
      apply Hfresh, list_elem_of_fmap. exists u'. split; [| done].
      unfold owned_by in Hown, Hown'. congruence.
Qed.

(** X11.  When the stored users have distinct rowids, the counts that
    [get_users_tasks_count] reports add up to the number of stored tasks
    whose [user_id] is the rowid of a stored user: never more than the number
    of stored tasks, and exactly that number when every task references a
    stored user. *)
Theorem counts_add_up (db : database) :
  NoDup (User.id <$> users db) →
  ∃ rows,
    get_users_tasks_count db = (Return rows, db) ∧
    total rows = Z.of_nat (length (filter (has_owner db) (tasks db))) ∧
    total rows ≤ Z.of_nat (length (tasks db)) ∧
    ((∀ t, t ∈ tasks db → has_owner db t) →
     total rows = Z.of_nat (length (tasks db))).
Proof.
  intros Hnd. eexists. split; [apply get_users_tasks_count_run |].
  rewrite select_users_tasks_count_rows by done.
  assert (Htotal : total (count_row db <$> users_by_rowid (users db))
                   = Z.of_nat (length (filter (has_owner db) (tasks db)))).
  { unfold count_row, tasks_owned. rewrite total_counts
      by (by rewrite users_by_rowid_perm).
    do 2 f_equal. apply list_filter_iff. intros t. unfold has_owner.
    by rewrite users_by_rowid_perm. }
  rewrite Htotal. split_and!; [done | |].
  - apply inj_le, length_filter.
  - intros Hall. by rewrite filter_all.
Qed.

Lemma counts_add_up_witness :
  NoDup (User.id <$> users demo_db) ∧
  ∃ rows,
    get_users_tasks_count demo_db = (Return rows, demo_db) ∧
    total rows = Z.of_nat (length (filter (has_owner demo_db) (tasks demo_db))) ∧
    total rows ≤ Z.of_nat (length (tasks demo_db)) ∧
    ((∀ t, t ∈ tasks demo_db → has_owner demo_db t) →
     total rows = Z.of_nat (length (tasks demo_db))).
Proof.
  assert (H : NoDup (User.id <$> users demo_db)) by by_evaluation.
  split; [exact H |].
  exact (counts_add_up demo_db H).
Defined.

(** ** Lookups by a unique column *)

Lemma filter_on_unique_column {B} (proj : User.t → B) (v : B)
  (P : User.t → Prop) `{!∀ x, Decision (P x)} l :
  NoDup (proj <$> l) → (∀ u, u ∈ l → P u → proj u = v) →
  (length (filter P l) ≤ 1)%nat.
Proof.
  induction l as [| u l IH]; intros Hnd Hv; [simpl; lia |].
  rewrite fmap_cons in Hnd. apply NoDup_cons in Hnd as [Hfresh Hnd].
  rewrite filter_cons. destruct (decide (P u)) as [HP |].
  - assert (filter P l = []) as ->; [| simpl; lia].
    apply head_None, head_filter_None. intros u' Hu' HP'.
    apply Hfresh, list_elem_of_fmap. exists u'. split; [| done].
    rewrite (Hv u) by (done || left). symmetry. apply Hv; [by right | done].
  - apply IH; [done |]. intros u' Hu'. apply Hv. by right.
Qed.

(** X12.  In a store whose users have distinct rowids and distinct emails
    (every reachable store), a filter with values of the types of its
    columns that fixes [id] or [email] selects at most one user: [get_users]
    returns a list of length 0 or 1. *)
Theorem lookup_by_id_or_email_finds_at_most_one
  (filter_by : gmap string value) (db : database) :
  consistent db →
  typed users_types filter_by →
  is_Some (filter_by !! "id") ∨ is_Some (filter_by !! "email") →
  ∃ l, get_users (Some filter_by) db = (Return l, db) ∧ (length l ≤ 1)%nat.
Proof.
  intros [Hid Hem] Hk%typed_known_users Hkey.
  rewrite (get_users_known _ _ Hk).
  eexists. split; [reflexivity |]. rewrite length_fmap.
  destruct Hkey as [[v Hv] | [v Hv]].
  - apply (filter_on_unique_column (λ u, VInt (User.id u)) v).
    + rewrite users_by_rowid_perm.
      assert ((λ u, VInt (User.id u)) <$> users db
              = VInt <$> (User.id <$> users db)) as ->
        by (by rewrite <- list_fmap_compose).
      assert (Inj (=) (=) VInt) by (by intros ?? [= ?]).
      by apply NoDup_fmap_2.
    + intros u _ Hm. specialize (Hm "id" v Hv). cbv beta in Hm.
      rewrite User_get_id in Hm. by injection Hm.
  - apply (filter_on_unique_column User.email v).
    + by rewrite users_by_rowid_perm.
    + intros u _ Hm. specialize (Hm "email" v Hv). cbv beta in Hm.
      rewrite User_get_email in Hm. by injection Hm.
Qed.

Lemma lookup_by_id_or_email_finds_at_most_one_witness :
  consistent demo_db ∧
  typed users_types {[ "email" := VStr "john.doe@example.com" ]} ∧
  ∃ l, get_users (Some {[ "email" := VStr "john.doe@example.com" ]}) demo_db
         = (Return l, demo_db) ∧
       (length l ≤ 1)%nat.
Proof.
  assert (H1 : consistent demo_db)
    by exact (reachable_consistent demo_db demo_db_reachable).
  assert (H2 : typed users_types
                 {[ "email" := VStr "john.doe@example.com" ]})
    by by_evaluation.
  split_and!; [exact H1 | exact H2 |].
  apply (lookup_by_id_or_email_finds_at_most_one
           {[ "email" := VStr "john.doe@example.com" ]} demo_db H1 H2).
  right. rewrite lookup_singleton_eq. eauto.
Defined.

(** ** update_user: when it fails, when it cannot fail, and doing it twice *)

Lemma assign_inl kw u e : assign kw u = inl e → e = IntegrityError.
Proof.
  unfold assign.
  destruct (set_rowid (User.id u) (kw !! "id")),
    (set_column users_table "name" (User.name u) (kw !! "name")),
    (set_column users_table "email" (User.email u) (kw !! "email")),
    (set_column users_table "age" (User.age u) (kw !! "age"));
    by intros [= <-].
Qed.

Lemma update_rows_inl f kw before after e :
  update_rows f kw before after = inl e → e = IntegrityError.
Proof.
  revert before. induction after as [| u after IH]; intros before; simpl;
    [discriminate |].
  destruct (decide (user_matches f u)); [| apply IH].
  destruct (assign kw u) as [e' | u'] eqn:Ha.
  - intros [= <-]. by apply assign_inl in Ha.
  - destruct (bool_decide (is_Some (kw !! "id")) && _); [by intros [= <-] |].
    destruct (bool_decide (is_Some (kw !! "email")) && _);
      [by intros [= <-] | apply IH].
Qed.

Lemma update_user_raises_IntegrityError f kw db :
  known_keys User.columns f → known_keys User.columns kw → kw ≠ ∅ →
  (∀ us, update_rows f kw [] (users db) ≠ inr us) →
  update_user (Some f) kw db = (Raise IntegrityError, db).
Proof.
  intros Hkf Hkk Hne Hfail. rewrite update_user_run. simpl.
  unfold update_users. rewrite !decide_True, decide_False by done.
  destruct (update_rows f kw [] (users db)) as [e | us] eqn:Hrows.
  - by apply update_rows_inl in Hrows as ->.
  - by destruct (Hfail us).
Qed.

Lemma is_Some_non_empty (kw : gmap string value) k :
  is_Some (kw !! k) → kw ≠ ∅.
Proof. intros [v Hv] ->. by rewrite lookup_empty in Hv. Qed.

(** X13.  In a store with distinct rowids and distinct emails, an
    [update_user] with values of the types of their columns that assigns
    [id] or [email] while its filter matches two different users raises
    [IntegrityError] and changes nothing: one value cannot be given to two
    rows of a unique column. *)
Theorem update_of_unique_column_on_two_users_raises
  (f kw : gmap string value) (db : database) (u1 u2 : User.t) :
  consistent db →
  typed users_types f → typed users_types kw →
  is_Some (kw !! "id") ∨ is_Some (kw !! "email") →
  u1 ∈ users db → u2 ∈ users db → u1 ≠ u2 →
  user_matches f u1 → user_matches f u2 →
  update_user (Some f) kw db = (Raise IntegrityError, db).
Proof.
  intros [Hid Hem] Hkf%typed_known_users Hkk%typed_known_users
    Hkey Hu1 Hu2 Hne Hm1 Hm2.
  apply update_user_raises_IntegrityError; [done | done | |].
  { destruct Hkey; by eapply is_Some_non_empty. }
  intros us Hrows.
  destruct (update_rows_consistent f kw [] (users db) us Hid Hem Hrows)
    as [Hid' Hem'].
  apply update_rows_inr in Hrows as (res' & -> & HF). simpl in *.
  apply list_elem_of_lookup in Hu1 as [i Hi], Hu2 as [j Hj].
  destruct (Forall2_lookup_l _ _ _ _ _ HF Hi) as (u1' & Hi' & Hr1).
  destruct (Forall2_lookup_l _ _ _ _ _ HF Hj) as (u2' & Hj' & Hr2).
  unfold updated_row in Hr1, Hr2.
  rewrite decide_True in Hr1 by done. rewrite decide_True in Hr2 by done.
  apply assign_inr in Hr1 as (Hid1 & _ & Hem1 & _).
  apply assign_inr in Hr2 as (Hid2 & _ & Hem2 & _).
  assert (i = j) as ->; [| congruence].
  destruct Hkey as [[v Hv] | [v Hv]].
  - rewrite Hv in Hid1, Hid2.
    apply (NoDup_lookup _ i j (User.id u1') Hid');
      rewrite list_lookup_fmap; [by rewrite Hi' |].
    rewrite Hj'. simpl. congruence.
  - rewrite Hv in Hem1, Hem2.
    apply (NoDup_lookup _ i j (User.email u1') Hem');
      rewrite list_lookup_fmap; [by rewrite Hi' |].
    rewrite Hj'. simpl. congruence.
Qed.

Lemma update_of_unique_column_on_two_users_raises_witness :
  update_user None {[ "email" := VStr "all@example.com" ]} demo_db
    = (Raise IntegrityError, demo_db).
Proof.
  apply (update_of_unique_column_on_two_users_raises
           ∅ {[ "email" := VStr "all@example.com" ]} demo_db
           (User.mk 1 (VStr "John Doe") (VStr "john.doe@example.com") (VInt 30))
           (User.mk 2 (VStr "John Snow") (VStr "john2.doe@example.com")
              (VInt 33))).
  - exact (reachable_consistent demo_db demo_db_reachable).
  - apply map_Forall_empty.
  - by_evaluation.
  - right. rewrite lookup_singleton_eq. eauto.
  - by_evaluation.
  - by_evaluation.
  - discriminate.
  - apply user_matches_empty.
  - apply user_matches_empty.
Defined.

Lemma assign_None kw u c :
  c ∈ User.columns → kw !! c = Some VNone → assign kw u = inl IntegrityError.
Proof.
  intros Hc Hkw. unfold assign, User.columns in *.
  repeat (apply elem_of_cons in Hc as [-> | Hc]);
    [| | | | by apply elem_of_nil in Hc]; rewrite Hkw; simpl.
  - done.
  - by destruct (set_rowid (User.id u) (kw !! "id")).
  - by destruct (set_rowid (User.id u) (kw !! "id")),
      (set_column users_table "name" (User.name u) (kw !! "name")).
  - by destruct (set_rowid (User.id u) (kw !! "id")),
      (set_column users_table "name" (User.name u) (kw !! "name")),
      (set_column users_table "email" (User.email u) (kw !! "email")).
Qed.

(** X14.  An [update_user] with values of the types of their columns that
    assigns [None] to a column raises [IntegrityError] and changes nothing
    as soon as its filter matches a stored user: every column of [users] is
    NOT NULL. *)
Theorem update_to_None_raises (f kw : gmap string value) (db : database)
  (u : User.t) (c : string) :
  typed users_types f → typed users_types kw →
  c ∈ User.columns → kw !! c = Some VNone →
  u ∈ users db → user_matches f u →
  update_user (Some f) kw db = (Raise IntegrityError, db).
Proof.
  intros Hkf%typed_known_users Hkk%typed_known_users Hc Hkw Hu Hm.
  apply update_user_raises_IntegrityError; [done | done | |].
  { apply (is_Some_non_empty _ c). eauto. }
  intros us Hrows.
  apply update_rows_inr in Hrows as (res' & -> & HF).
  apply list_elem_of_lookup in Hu as [i Hi].
  destruct (Forall2_lookup_l _ _ _ _ _ HF Hi) as (u' & _ & Hrow).
  unfold updated_row in Hrow. rewrite decide_True in Hrow by done.
  by rewrite (assign_None _ _ c) in Hrow.
Qed.

Lemma update_to_None_raises_witness :
  update_user (Some {[ "id" := VInt 2 ]}) {[ "age" := VNone ]} demo_db
    = (Raise IntegrityError, demo_db).
Proof.
  apply (update_to_None_raises {[ "id" := VInt 2 ]} {[ "age" := VNone ]}
           demo_db
           (User.mk 2 (VStr "John Snow") (VStr "john2.doe@example.com")
              (VInt 33)) "age").
  - by_evaluation.
  - by_evaluation.
  - by_evaluation.
  - apply lookup_singleton_eq.
  - by_evaluation.
  - apply user_matches_singleton. reflexivity.
Defined.

(** X15.  An [update_user] with values of the types of their columns that
    assigns only [name] and [age], neither to [None], meets no constraint:
    in every store it succeeds, gives every matching user the new values,
    keeps rowids and emails, and leaves the other users and all tasks as
    they were. *)
Theorem update_of_name_and_age_succeeds (f kw : gmap string value)
  (db : database) :
  typed users_types f → typed users_types kw → kw ≠ ∅ →
  kw !! "id" = None → kw !! "email" = None →
  kw !! "name" ≠ Some VNone → kw !! "age" ≠ Some VNone →
  ∃ r, update_user (Some f) kw db =
       (Return r,
        Database ((λ u, if decide (user_matches f u)
                        then reassigned kw u else u) <$> users db)
                 (tasks db)).
Proof.
  intros Hkf%typed_known_users Hkk%typed_known_users Hne Hid Hem Hn Ha.
  rewrite update_user_run. simpl.
  unfold update_users. rewrite !decide_True, decide_False by done.
  rewrite update_rows_free by done. simpl.
  rewrite (get_user_known _ _ Hkf). simpl. eauto.
Qed.

Lemma update_of_name_and_age_succeeds_witness :
  ∃ r, update_user (Some {[ "id" := VInt 1 ]}) {[ "age" := VInt 111 ]} demo_db
       = (Return r,
          Database ((λ u, if decide (user_matches {[ "id" := VInt 1 ]} u)
                          then reassigned {[ "age" := VInt 111 ]} u else u)
                      <$> users demo_db)
                   (tasks demo_db)).
Proof.
  apply (update_of_name_and_age_succeeds
           {[ "id" := VInt 1 ]} {[ "age" := VInt 111 ]} demo_db).
  - by_evaluation.
  - by_evaluation.
  - apply insert_non_empty.
  - reflexivity.
  - reflexivity.
  - discriminate.
  - discriminate.
Defined.

Lemma set_rowid_again old new i :
  set_rowid old new = inr i → set_rowid i new = inr i.
Proof.
  unfold set_rowid. destruct new as [[] |]; try discriminate; by intros [= ->].
Qed.

Lemma set_column_again table column old new v :
  set_column table column old new = inr v →
  set_column table column v new = inr v.
Proof.
  unfold set_column. destruct new as [w |]; [| by intros [= ->]].
  destruct (not_null_ok _ _ _); [done | discriminate].
Qed.

(** Assigning the same values to an assigned row gives that row. *)
Lemma assign_again kw u u' : assign kw u = inr u' → assign kw u' = inr u'.
Proof.
  unfold assign. intros H.
  destruct (set_rowid (User.id u) (kw !! "id")) as [| i] eqn:Hi;
    [discriminate |].
  destruct (set_column users_table "name" (User.name u) (kw !! "name"))
    as [| n] eqn:Hn; [discriminate |].
  destruct (set_column users_table "email" (User.email u) (kw !! "email"))
    as [| e] eqn:He; [discriminate |].
  destruct (set_column users_table "age" (User.age u) (kw !! "age"))
    as [| a] eqn:Ha; [discriminate |].
  injection H as <-. simpl.
  by rewrite (set_rowid_again _ _ _ Hi), (set_column_again _ _ _ _ _ Hn),
    (set_column_again _ _ _ _ _ He), (set_column_again _ _ _ _ _ Ha).
Qed.

Lemma update_rows_fixed f kw before after :
  NoDup (User.id <$> before ++ after) →
  NoDup (User.email <$> before ++ after) →
  (∀ u, u ∈ after → user_matches f u → assign kw u = inr u) →
  update_rows f kw before after = inr (before ++ after).
Proof.
  revert before. induction after as [| u after IH];
    intros before Hid Hem Hfix; simpl.
  - by rewrite app_nil_r.
  - assert (Hrest : update_rows f kw (before ++ [u]) after
                    = inr (before ++ u :: after)).
    { rewrite IH; rewrite <- ?app_assoc; try done.
      intros u' Hu'. apply Hfix. by right. }
    destruct (decide (user_matches f u)); [| done].
    rewrite Hfix by (done || left).
    assert (Hout : ∀ {B} (proj : User.t → B),
              NoDup (proj <$> before ++ u :: after) →
              proj u ∉ proj <$> before ++ after).
    { intros B proj Hnd. rewrite fmap_app, fmap_cons in Hnd.
      apply NoDup_app in Hnd as (_ & H12 & [H2 _]%NoDup_cons).
      rewrite fmap_app. intros [Hin | Hin]%elem_of_app; [| done].
      apply (H12 _ Hin). left. }
    rewrite (bool_decide_eq_false_2 _ (Hout _ User.id Hid)).
    rewrite (bool_decide_eq_false_2 _ (Hout _ User.email Hem)).
    by rewrite !andb_false_r.
Qed.

(** X16.  In a store with distinct rowids and distinct emails, an
    [update_user] that succeeded changes nothing when it is called again
    with the same arguments on the store it left, and returns the same
    user. *)
Theorem update_user_twice (f kw : gmap string value) (db db' : database)
  (r : option User.loaded) :
  consistent db →
  update_user (Some f) kw db = (Return r, db') →
  update_user (Some f) kw db' = (Return r, db').
Proof.
  intros Hc. rewrite !update_user_run. simpl.
  destruct (update_users f kw db) as [| db1] eqn:Hup; [discriminate |].
  intros [= Hr <-].
  destruct (update_users_consistent _ _ _ _ Hc Hup) as [Hid' Hem'].
  pose proof (update_users_inr _ _ _ _ Hup) as [HF Htasks].
  assert (Hup' : update_users f kw db1 = inr db1).
  { unfold update_users in Hup |- *.
    destruct (decide (known_keys User.columns f)); [| discriminate].
    destruct (decide (known_keys User.columns kw)); [| discriminate].
    destruct (decide (kw = ∅)); [discriminate |].
    rewrite (update_rows_fixed f kw [] (users db1)); [by destruct db1 | done..|].
    intros u' [i Hi]%list_elem_of_lookup Hm.
    destruct (Forall2_lookup_r _ _ _ _ _ HF Hi) as (u & _ & Hrow).
    unfold updated_row in Hrow.
    destruct (decide (user_matches f u)) as [| Hno].
    - by apply (assign_again kw u).
    - subst u'. by destruct Hno. }
  rewrite Hup'. by rewrite <- Hr.
Qed.

Lemma update_user_twice_witness :
  consistent demo_db ∧
  ∃ r db',
    update_user (Some {[ "id" := VInt 1 ]}) {[ "age" := VInt 111 ]} demo_db
      = (Return r, db') ∧
    update_user (Some {[ "id" := VInt 1 ]}) {[ "age" := VInt 111 ]} db'
      = (Return r, db').
Proof.
  assert (H : consistent demo_db)
    by exact (reachable_consistent demo_db demo_db_reachable).
  split; [exact H |].
  assert (Hfirst : ∃ r db',
            update_user (Some {[ "id" := VInt 1 ]}) {[ "age" := VInt 111 ]}
              demo_db = (Return r, db'))
    by (eexists _, _; vm_compute; reflexivity).
  destruct Hfirst as (r & db' & Hfirst). exists r, db'.
  split; [exact Hfirst |].
  exact (update_user_twice {[ "id" := VInt 1 ]} {[ "age" := VInt 111 ]}
           demo_db db' r H Hfirst).
Defined.

(** ** The driver *)

(** X17.  Whatever example.db held, the module runs to its end without an
    exception; it prints John Doe with the task, the three users, John Doe
    with age 111, and the counts 1, 0, 0, and leaves three users and one
    task.  Run on a store that already holds the first email (as the store
    the module itself leaves), the script raises [IntegrityError] at its
    first statement and changes nothing, which the dropping of the tables
    prevents. *)
Theorem driver_runs_once :
  (∀ db,
     let john age :=
       User.Loaded
         (User.mk 1 (VStr "John Doe") (VStr "john.doe@example.com") (VInt age))
         [Task.mk 1 (VStr "Buy groceries") (VStr "Buy groceries") (VInt 0)
            (VInt 1)] in
     let snow :=
       User.mk 2 (VStr "John Snow") (VStr "john2.doe@example.com") (VInt 33) in
     let john3 :=
       User.mk 3 (VStr "John 3") (VStr "john3.doe@example.com") (VInt 11) in
     main db =
     (inr (Printed (Some (john 30))
             [john 30; User.Loaded snow []; User.Loaded john3 []]
             (Some (john 111))
             [(1, VStr "John Doe", 1); (2, VStr "John Snow", 0);
              (3, VStr "John 3", 0)]),
      Database [User.columns_of (john 111); snow; john3]
               (User.tasks (john 111)))) ∧
  (∀ db,
     VStr "john.doe@example.com" ∈ User.email <$> users db →
     script db = (inl (Raised IntegrityError), db)).
Proof.
  split.
  - intros db. vm_compute. reflexivity.
  - intros db Hin. unfold script, mbind, Script_bind, call.
    by rewrite create_user_run, insert_user_taken.
Qed.

Lemma driver_runs_once_witness :
  script (main empty_db).2 = (inl (Raised IntegrityError), (main empty_db).2).
Proof.
  apply (proj2 driver_runs_once (main empty_db).2).
  by_evaluation.
Defined.
